(** * A prefix tree (trie) of words: model of [src/trie.py] and its properties.

    The Python class [Trie] owns a tree of [TrieNode] objects. Every node has a
    dictionary [children] from one character to the child node and a flag
    [is_end]. A node is owned by exactly one parent, so the mutable object
    graph is modelled as an immutable tree and every mutating method returns
    the new tree. A Python [dict] keeps its keys in insertion order and the
    enumeration methods iterate in that order, hence the dictionary is an
    association list: a key that is assigned again keeps its position, a new
    key goes to the end, [del] takes the entry out.

    A character is an [ascii]; the recursion limit of the interpreter is not
    modelled, the inner functions recurse as deep as the word or the tree
    asks. *)

From Stdlib Require Import Ascii String.
From Stdlib Require Import List ZArith Bool Lia PeanoNat.
Import ListNotations.

Set Warnings "-register-all".

(** ** Words *)

(** A Python [str] is read as the list of its characters. *)
Definition word := list ascii.

Definition w (s : string) : word := list_ascii_of_string s.

(** [is_prefix p x]: the word [x] starts with [p]. *)
Definition is_prefix (p x : word) : Prop := exists s, x = p ++ s.

(** ** Insertion ordered dictionaries *)

Section Dict.
Variable V : Type.

Definition dict := list (ascii * V).

(** [d.get(k)] *)
Fixpoint dict_get (k : ascii) (d : dict) : option V :=
  match d with
  | [] => None
  | (k', v) :: d' => if Ascii.eqb k k' then Some v else dict_get k d'
  end.

(** [d[k] = v]: in place when [k] is a key, at the end otherwise. *)
Fixpoint dict_set (k : ascii) (v : V) (d : dict) : dict :=
  match d with
  | [] => [(k, v)]
  | (k', v') :: d' =>
      if Ascii.eqb k k' then (k, v) :: d' else (k', v') :: dict_set k v d'
  end.

(** [del d[k]]: the entry of [k] is taken out (a [dict] has at most one). *)
Fixpoint dict_del (k : ascii) (d : dict) : dict :=
  match d with
  | [] => []
  | (k', v') :: d' =>
      if Ascii.eqb k k' then dict_del k d' else (k', v') :: dict_del k d'
  end.

Definition keys (d : dict) : list ascii := map fst d.
End Dict.

Arguments dict_get {V} k d.
Arguments dict_set {V} k v d.
Arguments dict_del {V} k d.
Arguments keys {V} d.

(** ** Nodes and tries *)

Inductive TrieNode : Type :=
  mkNode { children : list (ascii * TrieNode); is_end : bool }.

(** [TrieNode()] *)
Definition new_node : TrieNode := mkNode [] false.

Record Trie : Type := mkTrie { _root : TrieNode; _size : Z }.

(** [Trie()] *)
Definition empty : Trie := mkTrie new_node 0.

(** The loop of [_traverse], started at [node]. *)
Fixpoint traverse_from (node : TrieNode) (s : word) : option TrieNode :=
  match s with
  | [] => Some node
  | ch :: rest =>
      match dict_get ch (children node) with
      | None => None
      | Some child => traverse_from child rest
      end
  end.

Definition _traverse (t : Trie) (s : word) : option TrieNode :=
  traverse_from (_root t) s.

Definition search (t : Trie) (word : word) : bool :=
  match _traverse t word with
  | Some node => is_end node
  | None => false
  end.

Definition starts_with (t : Trie) (prefix : word) : bool :=
  match _traverse t prefix with
  | Some _ => true
  | None => false
  end.

(** The body of [insert] after the guard: the walk that creates the missing
    nodes, then the marking of the last node. The counter [_size] is threaded
    through. *)
Fixpoint insert_from (node : TrieNode) (sz : Z) (rest : word) : TrieNode * Z :=
  match rest with
  | [] =>
      if is_end node then (node, sz)
      else (mkNode (children node) true, sz + 1)%Z
  | ch :: rest' =>
      let child :=
        match dict_get ch (children node) with
        | Some c => c
        | None => new_node
        end in
      let '(child', sz') := insert_from child sz rest' in
      (mkNode (dict_set ch child' (children node)) (is_end node), sz')
  end.

Definition insert (t : Trie) (word : word) : Trie :=
  match word with
  | [] => t
  | _ :: _ =>
      let '(root', sz') := insert_from (_root t) (_size t) word in
      mkTrie root' sz'
  end.

(** The inner function [_delete node depth] of [delete]; [rest] is
    [word[depth:]], so [depth == len(word)] reads [rest = []] and [word[depth]]
    is the head of [rest]. It returns the node as it is left, the counter and
    the flag [should_prune]. *)
Fixpoint _delete (node : TrieNode) (sz : Z) (rest : word)
  : TrieNode * Z * bool :=
  match rest with
  | [] =>
      if negb (is_end node) then (node, sz, false)
      else (mkNode (children node) false, (sz - 1)%Z,
            Nat.eqb (length (children node)) 0)
  | ch :: rest' =>
      match dict_get ch (children node) with
      | None => (node, sz, false)
      | Some child =>
          let '(child', sz', should_prune) := _delete child sz rest' in
          if should_prune then
            let cs := dict_del ch (children node) in
            (mkNode cs (is_end node), sz',
             negb (is_end node) && Nat.eqb (length cs) 0)
          else
            (mkNode (dict_set ch child' (children node)) (is_end node), sz',
             false)
      end
  end.

Definition delete (t : Trie) (word : word) : Trie * bool :=
  match word with
  | [] => (t, false)
  | _ :: _ =>
      let existed := search t word in
      let '(root', sz', _) := _delete (_root t) (_size t) word in
      (mkTrie root' sz', existed)
  end.

(** [limit is not None and len(results) >= limit] *)
Definition limit_reached (limit : option Z) (results : list word) : bool :=
  match limit with
  | None => false
  | Some k => (Z.of_nat (length results) >=? k)%Z
  end.

(** The inner [dfs] of [get_words_with_prefix]. The shared [path] is extended
    before and restored after every recursive call, so it is an argument; the
    shared [results] list is threaded through. *)
Fixpoint words_dfs (limit : option Z) (n : TrieNode) (path : word)
    (results : list word) : list word :=
  if limit_reached limit results then results
  else
    let results := if is_end n then results ++ [path] else results in
    fold_left
      (fun acc (kv : ascii * TrieNode) =>
         words_dfs limit (snd kv) (path ++ [fst kv]) acc)
      (children n) results.

Definition get_words_with_prefix (t : Trie) (prefix : word)
    (limit : option Z) : list word :=
  match _traverse t prefix with
  | None => []
  | Some node => words_dfs limit node prefix []
  end.

(** The inner [dfs] of [count_prefix], with the [nonlocal count] threaded. *)
Fixpoint count_dfs (n : TrieNode) (count : Z) : Z :=
  let count := if is_end n then (count + 1)%Z else count in
  fold_left (fun acc (kv : ascii * TrieNode) => count_dfs (snd kv) acc)
    (children n) count.

Definition count_prefix (t : Trie) (prefix : word) : Z :=
  match _traverse t prefix with
  | None => 0%Z
  | Some node => count_dfs node 0
  end.

Definition size (t : Trie) : Z := _size t.

Definition is_empty (t : Trie) : bool := (_size t =? 0)%Z.

(** ** Histories of calls *)

Inductive op : Type :=
| Insert (word : word)
| Delete (word : word).

Definition apply_op (t : Trie) (o : op) : Trie :=
  match o with
  | Insert x => insert t x
  | Delete x => fst (delete t x)
  end.

Definition run (ops : list op) : Trie := fold_left apply_op ops empty.

(** A state of the object: what a sequence of [insert] and [delete] calls
    makes of [Trie()]. *)
Definition reachable (t : Trie) : Prop := exists ops, t = run ops.

(** The inserts of [ops], run from [t], that store a word not stored at that
    moment, and the deletes that return [True]. *)
Fixpoint added (t : Trie) (ops : list op) : nat :=
  match ops with
  | [] => 0
  | o :: ops' =>
      (match o with
       | Insert [] => 0
       | Insert (ch :: x) => if search t (ch :: x) then 0 else 1
       | Delete _ => 0
       end) + added (apply_op t o) ops'
  end.

Fixpoint removed (t : Trie) (ops : list op) : nat :=
  match ops with
  | [] => 0
  | o :: ops' =>
      (match o with
       | Delete x => if snd (delete t x) then 1 else 0
       | Insert _ => 0
       end) + removed (apply_op t o) ops'
  end.

(** The words ever passed to [insert], and the words whose [delete] returned
    [True], in the order of the calls. *)
Definition inserted_words (ops : list op) : list word :=
  flat_map (fun o => match o with Insert x => [x] | Delete _ => [] end) ops.

Fixpoint deleted_words (t : Trie) (ops : list op) : list word :=
  match ops with
  | [] => []
  | o :: ops' =>
      (match o with
       | Delete x => if snd (delete t x) then [x] else []
       | Insert _ => []
       end) ++ deleted_words (apply_op t o) ops'
  end.

Definition word_eq_dec : forall x y : word, {x = y} + {x <> y} :=
  list_eq_dec ascii_dec.

Definition distinct (l : list word) : nat := length (nodup word_eq_dec l).

(** ** The node graph *)

(** Membership of a word in the subtree of a node: the walk of [_traverse]
    followed by the test of [search]. *)
Definition mem (n : TrieNode) (x : word) : bool :=
  match traverse_from n x with
  | Some m => is_end m
  | None => false
  end.

(** All the nodes of a subtree, the node itself first, and those below it. *)
Fixpoint subnodes (n : TrieNode) : list TrieNode :=
  n :: flat_map (fun kv : ascii * TrieNode => subnodes (snd kv)) (children n).

Definition descendants (n : TrieNode) : list TrieNode :=
  flat_map (fun kv : ascii * TrieNode => subnodes (snd kv)) (children n).

(** The number of nodes whose terminal flag is set. *)
Definition terminal_nodes (n : TrieNode) : nat :=
  length (filter is_end (subnodes n)).

(** What a [dict] guarantees: no key occurs twice, at any node. *)
Definition unique_keys (n : TrieNode) : Prop :=
  Forall (fun m => NoDup (keys (children m))) (subnodes n).

(** A dead node is neither terminal nor has it children. *)
Definition dead (m : TrieNode) : bool :=
  negb (is_end m) && Nat.eqb (length (children m)) 0.

(** No node other than [n] itself is dead. *)
Definition no_dead_branch (n : TrieNode) : Prop :=
  Forall (fun m => dead m = false) (descendants n).

(** The tree without its flags: which nodes there are, under which keys. *)
Fixpoint skeleton (n : TrieNode) : TrieNode :=
  mkNode (map (fun kv : ascii * TrieNode => (fst kv, skeleton (snd kv)))
            (children n)) false.

(** The words below a node in the order the depth first traversal meets
    them, each written after [path]. *)
Fixpoint words_below (n : TrieNode) (path : word) : list word :=
  (if is_end n then [path] else []) ++
  flat_map (fun kv : ascii * TrieNode => words_below (snd kv) (path ++ [fst kv]))
    (children n).

(** The number of elements of a list that pass a test. *)
Definition tally {A : Type} (g : A -> bool) (l : list A) : nat :=
  length (filter g l).

(** The child under [ch] that [insert] goes on with: the one there is, or the
    fresh node it creates. *)
Definition child_or_new (ch : ascii) (n : TrieNode) : TrieNode :=
  match dict_get ch (children n) with
  | Some c => c
  | None => new_node
  end.

(** The three results of [_delete]. *)
Definition del_node (r : TrieNode * Z * bool) : TrieNode := fst (fst r).
Definition del_size (r : TrieNode * Z * bool) : Z := snd (fst r).
Definition del_prune (r : TrieNode * Z * bool) : bool := snd r.

(** What holds of every state of the object. *)
Record invariant (t : Trie) : Prop := {
  inv_keys : unique_keys (_root t);
  inv_root : is_end (_root t) = false;
  inv_size : _size t = Z.of_nat (terminal_nodes (_root t));
  inv_dead : no_dead_branch (_root t)
}.

#[local] Abbreviation sub := (fun kv : ascii * TrieNode => subnodes (snd kv)).

#[local] Abbreviation tally_end := (tally is_end).

#[local] Abbreviation live := (fun m : TrieNode => dead m = false).

#[local] Abbreviation below path :=
  (fun kv : ascii * TrieNode => words_below (snd kv) (path ++ [fst kv])).

(** ** The command line application, [src/application.py] *)

(** [x.startswith(prefix)] *)
Fixpoint startswith (x prefix : word) : bool :=
  match prefix, x with
  | [], _ => true
  | _ :: _, [] => false
  | a :: prefix', b :: x' => Ascii.eqb a b && startswith x' prefix'
  end.

(** The inner [dfs] of [collect_all_words]; [path] and [results] as in
    [words_dfs]. *)
Fixpoint collect_dfs (node : TrieNode) (path : word) (results : list word)
  : list word :=
  let results := if is_end node then results ++ [path] else results in
  fold_left
    (fun acc (kv : ascii * TrieNode) =>
       collect_dfs (snd kv) (path ++ [fst kv]) acc)
    (children node) results.

Definition collect_all_words (trie : Trie) : list word :=
  collect_dfs (_root trie) [] [].

(** The two searches that the command [compare] times against each other. *)
Definition linear_matches (trie : Trie) (prefix : word) : list word :=
  filter (fun x => startswith x prefix) (collect_all_words trie).

Definition trie_matches (trie : Trie) (prefix : word) : list word :=
  get_words_with_prefix trie prefix None.

(** [l[:limit]] *)
Definition slice_to {A : Type} (limit : Z) (l : list A) : list A :=
  if (0 <=? limit)%Z then firstn (Z.to_nat limit) l
  else firstn (length l - Z.to_nat (- limit)) l.

(** The built-in list of [load_words]. *)
Definition fallback : list word :=
  map w ["app"; "apple"; "apples"; "application"; "applied"; "apply";
         "applet"; "apt";
         "banana"; "band"; "bandit"; "bandwidth";
         "bat"; "batch"; "bath";
         "cat"; "catch"; "cater";
         "dog"; "dove"; "doom"]%string.

Section LoadWords.
(** [line.strip().lower()], whatever it makes of a line. *)
Variable normalize : list ascii -> word.

(** The loop of [load_words] over the lines of the file, with the trie and
    the local [count] threaded. *)
Fixpoint load_lines (trie : Trie) (count : Z) (lines : list (list ascii))
  : Trie * Z :=
  match lines with
  | [] => (trie, count)
  | line :: rest =>
      match normalize line with
      | [] => load_lines trie count rest
      | ch :: x => load_lines (insert trie (ch :: x)) (count + 1)%Z rest
      end
  end.

(** [load_words(trie, path)]; [file] is [None] when [os.path.exists(path)] is
    false and the lines of the file otherwise. *)
Definition load_words (trie : Trie) (file : option (list (list ascii)))
  : Trie * Z :=
  match file with
  | None => (fold_left insert fallback trie, Z.of_nat (length fallback))
  | Some lines => load_lines trie 0 lines
  end.

(** The words that [load_words] passes to [insert]. *)
Definition loaded_words (file : option (list (list ascii))) : list word :=
  match file with
  | None => fallback
  | Some lines => filter (fun x => negb (Nat.eqb (length x) 0)) (map normalize lines)
  end.
End LoadWords.

#[local] Abbreviation nonblank :=
  (fun x : word => negb (Nat.eqb (length x) 0)).

(** ** More of the node graph *)

(** The walk of [starts_with] from a node. *)
Definition has_path (n : TrieNode) (p : word) : bool :=
  match traverse_from n p with
  | Some _ => true
  | None => false
  end.

(** ** The tries of the tests *)

Definition t_cars : Trie :=
  run [Insert (w "car"); Insert (w "card"); Insert (w "care")].

Definition t_cats : Trie :=
  run [Insert (w "cat"); Insert (w "car"); Insert (w "cart"); Insert (w "dog")].

Definition t_apps : Trie :=
  run [Insert (w "apple"); Insert (w "application"); Insert (w "applied");
       Insert (w "apt"); Insert (w "bat")].

(** ** Dictionaries *)

Section DictFacts.
Variable V : Type.
Implicit Types (d : dict V) (k : ascii) (v : V).

Lemma dict_get_set_same k v d : dict_get k (dict_set k v d) = Some v.
Proof.
  induction d as [|[k' v'] d IH]; simpl.
  - now rewrite Ascii.eqb_refl.
  - destruct (Ascii.eqb k k') eqn:E; simpl.
    + now rewrite Ascii.eqb_refl.
    + now rewrite E.
Qed.

Lemma dict_get_set_other k k' v d :
  k <> k' -> dict_get k (dict_set k' v d) = dict_get k d.
Proof.
  intros Hne. induction d as [|[k0 v0] d IH]; simpl.
  - apply Ascii.eqb_neq in Hne. now rewrite Hne.
  - destruct (Ascii.eqb k' k0) eqn:E; simpl.
    + apply Ascii.eqb_eq in E. subst k0.
      apply Ascii.eqb_neq in Hne. now rewrite Hne.
    + now rewrite IH.
Qed.

Lemma dict_get_del_same k d : dict_get k (dict_del k d) = None.
Proof.
  induction d as [|[k' v'] d IH]; simpl; [reflexivity|].
  destruct (Ascii.eqb k k') eqn:E; simpl; [assumption|].
  now rewrite E.
Qed.

Lemma dict_get_del_other k k' d :
  k <> k' -> dict_get k (dict_del k' d) = dict_get k d.
Proof.
  intros Hne. induction d as [|[k0 v0] d IH]; simpl; [reflexivity|].
  destruct (Ascii.eqb k' k0) eqn:E; simpl.
  - apply Ascii.eqb_eq in E. subst k0.
    apply Ascii.eqb_neq in Hne. now rewrite Hne.
  - now rewrite IH.
Qed.

Lemma dict_set_get_id k v d : dict_get k d = Some v -> dict_set k v d = d.
Proof.
  induction d as [|[k' v'] d IH]; simpl; [discriminate|].
  destruct (Ascii.eqb k k') eqn:E.
  - apply Ascii.eqb_eq in E. subst k'. now intros [= ->].
  - intros H. now rewrite IH.
Qed.

Lemma dict_get_In k v d : dict_get k d = Some v -> In (k, v) d.
Proof.
  induction d as [|[k' v'] d IH]; simpl; [discriminate|].
  destruct (Ascii.eqb k k') eqn:E.
  - apply Ascii.eqb_eq in E. subst k'. intros [= ->]. now left.
  - intros H. right. now apply IH.
Qed.

Lemma dict_get_None k d : dict_get k d = None -> ~ In k (keys d).
Proof.
  induction d as [|[k' v'] d IH]; simpl; [tauto|].
  destruct (Ascii.eqb k k') eqn:E; [discriminate|].
  apply Ascii.eqb_neq in E. intros H [H1|H1]; [congruence|]. now apply IH.
Qed.

Lemma In_dict_get k v d : NoDup (keys d) -> In (k, v) d -> dict_get k d = Some v.
Proof.
  induction d as [|[k' v'] d IH]; simpl; [tauto|].
  intros Hnd [H|H].
  - injection H as -> ->. now rewrite Ascii.eqb_refl.
  - inversion Hnd as [|? ? Hnotin Hnd']; subst.
    destruct (Ascii.eqb k k') eqn:E.
    + apply Ascii.eqb_eq in E. subst k'. exfalso. apply Hnotin.
      unfold keys. change k with (fst (k, v)). now apply in_map.
    + now apply IH.
Qed.

Lemma dict_set_new k v d : dict_get k d = None -> dict_set k v d = d ++ [(k, v)].
Proof.
  induction d as [|[k' v'] d IH]; simpl; [reflexivity|].
  destruct (Ascii.eqb k k'); [discriminate|]. intros H. now rewrite IH.
Qed.

Lemma dict_del_absent k d : ~ In k (keys d) -> dict_del k d = d.
Proof.
  induction d as [|[k' v'] d IH]; simpl; [reflexivity|].
  intros H. destruct (Ascii.eqb k k') eqn:E.
  - apply Ascii.eqb_eq in E. subst k'. tauto.
  - rewrite IH; tauto.
Qed.

Lemma keys_dict_set_old k v v' d :
  dict_get k d = Some v' -> keys (dict_set k v d) = keys d.
Proof.
  induction d as [|[k0 v0] d IH]; simpl; [discriminate|].
  destruct (Ascii.eqb k k0) eqn:E; simpl.
  - apply Ascii.eqb_eq in E. now subst k0.
  - intros H. f_equal. now apply IH.
Qed.

Lemma NoDup_keys_set k v d : NoDup (keys d) -> NoDup (keys (dict_set k v d)).
Proof.
  intros Hnd. destruct (dict_get k d) as [v'|] eqn:G.
  - now rewrite (keys_dict_set_old k v v' d G).
  - rewrite (dict_set_new k v d G). unfold keys. rewrite map_app. simpl.
    apply NoDup_app; [assumption|repeat constructor; simpl; tauto|].
    intros a Ha [<-|[]]. now apply (dict_get_None k d G).
Qed.

Lemma In_keys_del k k' d : In k (keys (dict_del k' d)) -> In k (keys d).
Proof.
  induction d as [|[k0 v0] d IH]; simpl; [tauto|].
  destruct (Ascii.eqb k' k0); simpl; tauto.
Qed.

Lemma NoDup_keys_del k d : NoDup (keys d) -> NoDup (keys (dict_del k d)).
Proof.
  induction d as [|[k0 v0] d IH]; simpl; [trivial|].
  intros Hnd. inversion Hnd as [|? ? Hnotin Hnd']; subst.
  destruct (Ascii.eqb k k0); simpl; [now apply IH|].
  constructor; [|now apply IH].
  intros H. apply Hnotin. now apply In_keys_del in H.
Qed.

Lemma dict_set_not_nil k v d : dict_set k v d <> [].
Proof. destruct d as [|[k' v'] d]; simpl; [|destruct (Ascii.eqb k k')]; discriminate. Qed.

(** Properties of all the entries, and sums over them. *)
Variable A : Type.
Variable f : ascii * V -> list A.

Lemma Forall_flat_map_get (P : A -> Prop) k v d :
  Forall P (flat_map f d) -> dict_get k d = Some v -> Forall P (f (k, v)).
Proof.
  intros H G. apply dict_get_In in G. rewrite Forall_forall in *.
  intros x Hx. apply H. apply in_flat_map. eauto.
Qed.

Lemma Forall_flat_map_set (P : A -> Prop) k v d :
  Forall P (flat_map f d) -> Forall P (f (k, v)) ->
  Forall P (flat_map f (dict_set k v d)).
Proof.
  intros H Hv. induction d as [|[k' v'] d IH]; simpl in *.
  - rewrite app_nil_r. assumption.
  - apply Forall_app in H as [H1 H2].
    destruct (Ascii.eqb k k'); simpl; apply Forall_app; auto.
Qed.

Lemma Forall_flat_map_del (P : A -> Prop) k d :
  Forall P (flat_map f d) -> Forall P (flat_map f (dict_del k d)).
Proof.
  intros H. induction d as [|[k' v'] d IH]; simpl in *; [constructor|].
  apply Forall_app in H as [H1 H2].
  destruct (Ascii.eqb k k'); simpl; [|apply Forall_app]; auto.
Qed.

Variable g : A -> bool.

Lemma tally_app l1 l2 : tally g (l1 ++ l2) = tally g l1 + tally g l2.
Proof. unfold tally. now rewrite filter_app, length_app. Qed.

Lemma tally_set_old k v v' d :
  dict_get k d = Some v' ->
  tally g (flat_map f (dict_set k v d)) + tally g (f (k, v'))
  = tally g (flat_map f d) + tally g (f (k, v)).
Proof.
  induction d as [|[k0 v0] d IH]; simpl; [discriminate|].
  destruct (Ascii.eqb k k0) eqn:E; simpl.
  - apply Ascii.eqb_eq in E. subst k0. intros [= ->].
    rewrite !tally_app. lia.
  - intros G. specialize (IH G). rewrite !tally_app. lia.
Qed.

Lemma tally_set_new k v d :
  dict_get k d = None ->
  tally g (flat_map f (dict_set k v d)) = tally g (flat_map f d) + tally g (f (k, v)).
Proof.
  intros G. rewrite (dict_set_new k v d G), flat_map_app, tally_app. simpl.
  now rewrite app_nil_r.
Qed.

Lemma tally_del k v d :
  NoDup (keys d) -> dict_get k d = Some v ->
  tally g (flat_map f (dict_del k d)) + tally g (f (k, v)) = tally g (flat_map f d).
Proof.
  induction d as [|[k0 v0] d IH]; simpl; [discriminate|].
  intros Hnd. inversion Hnd as [|? ? Hnotin Hnd']; subst.
  destruct (Ascii.eqb k k0) eqn:E; simpl.
  - apply Ascii.eqb_eq in E. subst k0. intros [= ->].
    rewrite dict_del_absent by assumption. rewrite tally_app. lia.
  - intros G. specialize (IH Hnd' G). rewrite !tally_app. lia.
Qed.
End DictFacts.

(** ** Nodes *)

Lemma node_eta n : mkNode (children n) (is_end n) = n.
Proof. now destruct n. Qed.

(** Induction on a node with the property known of every child. *)
Lemma TrieNode_tree_ind (P : TrieNode -> Prop) :
  (forall cs e, Forall (fun kv => P (snd kv)) cs -> P (mkNode cs e)) ->
  forall n, P n.
Proof.
  intros step. fix IH 1. intros [cs e]. apply step.
  induction cs as [|kv cs IHcs]; constructor; [apply IH | exact IHcs].
Qed.

Lemma mem_nil n : mem n [] = is_end n.
Proof. reflexivity. Qed.

Lemma mem_cons n c x :
  mem n (c :: x) =
  match dict_get c (children n) with Some m => mem m x | None => false end.
Proof. unfold mem. simpl. now destruct (dict_get c (children n)). Qed.

Lemma mem_new_node x : mem new_node x = false.
Proof. destruct x; reflexivity. Qed.

Lemma traverse_from_app n x s :
  traverse_from n (x ++ s) =
  match traverse_from n x with
  | Some m => traverse_from m s
  | None => None
  end.
Proof.
  revert n. induction x as [|c x IH]; intros n; simpl; [reflexivity|].
  destruct (dict_get c (children n)); [apply IH | reflexivity].
Qed.

(** *** What [insert] does to a node *)

Lemma insert_from_cons n sz ch x :
  insert_from n sz (ch :: x) =
  (mkNode (dict_set ch (fst (insert_from (child_or_new ch n) sz x)) (children n))
     (is_end n),
   snd (insert_from (child_or_new ch n) sz x)).
Proof.
  simpl. fold (child_or_new ch n).
  now destruct (insert_from (child_or_new ch n) sz x).
Qed.

Lemma mem_child_or_new ch n x : mem (child_or_new ch n) x = mem n (ch :: x).
Proof.
  rewrite mem_cons. unfold child_or_new.
  destruct (dict_get ch (children n)); [reflexivity | apply mem_new_node].
Qed.

Lemma mem_insert_from x : forall n sz y,
  mem (fst (insert_from n sz x)) y = if word_eq_dec y x then true else mem n y.
Proof.
  induction x as [|ch x IH]; intros n sz y.
  - simpl. destruct (word_eq_dec y []) as [->|Hne].
    + now destruct (is_end n) eqn:E.
    + destruct (is_end n); [reflexivity|].
      destruct y as [|c y]; [congruence|]. now rewrite !mem_cons.
  - rewrite insert_from_cons. destruct y as [|c y].
    + destruct (word_eq_dec [] (ch :: x)); [discriminate | reflexivity].
    + rewrite mem_cons. simpl children.
      destruct (ascii_dec c ch) as [->|Hc].
      * rewrite dict_get_set_same, IH, mem_child_or_new.
        destruct (word_eq_dec y x) as [->|Hy];
          destruct (word_eq_dec (ch :: _) (ch :: x)) as [He|He];
          congruence.
      * rewrite dict_get_set_other by assumption. rewrite <- mem_cons.
        destruct (word_eq_dec (c :: y) (ch :: x)); congruence.
Qed.

Lemma size_insert_from x : forall n sz,
  snd (insert_from n sz x) = (sz + if mem n x then 0 else 1)%Z.
Proof.
  induction x as [|ch x IH]; intros n sz.
  - simpl. rewrite mem_nil. destruct (is_end n); simpl; lia.
  - rewrite insert_from_cons. simpl. now rewrite IH, mem_child_or_new.
Qed.

Lemma insert_from_present x : forall n sz,
  mem n x = true -> insert_from n sz x = (n, sz).
Proof.
  induction x as [|ch x IH]; intros n sz H.
  - simpl. rewrite mem_nil in H. now rewrite H.
  - rewrite insert_from_cons. rewrite mem_cons in H. unfold child_or_new.
    destruct (dict_get ch (children n)) as [c|] eqn:G; [|discriminate].
    rewrite (IH c sz H). simpl.
    now rewrite (dict_set_get_id _ ch c (children n) G), node_eta.
Qed.

(** *** What [_delete] does to a node *)

Lemma _delete_nil n sz :
  _delete n sz [] =
  if is_end n
  then (mkNode (children n) false, (sz - 1)%Z, Nat.eqb (length (children n)) 0)
  else (n, sz, false).
Proof. simpl. now destruct (is_end n). Qed.

Lemma _delete_cons_none n sz ch x :
  dict_get ch (children n) = None -> _delete n sz (ch :: x) = (n, sz, false).
Proof. intros G. simpl. now rewrite G. Qed.

Lemma _delete_cons_some n sz ch x c :
  dict_get ch (children n) = Some c ->
  _delete n sz (ch :: x) =
  let r := _delete c sz x in
  if del_prune r
  then (mkNode (dict_del ch (children n)) (is_end n), del_size r,
        negb (is_end n) && Nat.eqb (length (dict_del ch (children n))) 0)
  else (mkNode (dict_set ch (del_node r) (children n)) (is_end n), del_size r,
        false).
Proof.
  intros G. simpl. rewrite G.
  now destruct (_delete c sz x) as [[c' sz'] []].
Qed.

(** A node that asks to be pruned is left without children and unmarked. *)
Lemma prune_shape x n sz :
  del_prune (_delete n sz x) = true ->
  children (del_node (_delete n sz x)) = [] /\
  is_end (del_node (_delete n sz x)) = false.
Proof.
  destruct x as [|ch x].
  - rewrite _delete_nil. destruct (is_end n); simpl; [|discriminate].
    intros H. apply Nat.eqb_eq in H. split; [|reflexivity].
    now apply length_zero_iff_nil.
  - destruct (dict_get ch (children n)) as [c|] eqn:G.
    + rewrite (_delete_cons_some n sz ch x c G). cbv zeta.
      destruct (del_prune (_delete c sz x)); simpl; [|discriminate].
      intros H. apply andb_true_iff in H as [H1 H2].
      apply Nat.eqb_eq in H2. apply negb_true_iff in H1.
      split; [now apply length_zero_iff_nil | assumption].
    + rewrite (_delete_cons_none n sz ch x G). discriminate.
Qed.

Lemma prune_mem x n sz y :
  del_prune (_delete n sz x) = true -> mem (del_node (_delete n sz x)) y = false.
Proof.
  intros H. apply prune_shape in H as [H1 H2].
  destruct y as [|c y]; [now rewrite mem_nil|].
  rewrite mem_cons, H1. reflexivity.
Qed.

Lemma mem_delete x : forall n sz y,
  mem (del_node (_delete n sz x)) y = if word_eq_dec y x then false else mem n y.
Proof.
  induction x as [|ch x IH]; intros n sz y.
  - rewrite _delete_nil. destruct (word_eq_dec y []) as [->|Hne].
    + rewrite mem_nil. now destruct (is_end n) eqn:E.
    + destruct (is_end n); [|reflexivity].
      destruct y as [|c y]; [congruence|]. now rewrite !mem_cons.
  - destruct (dict_get ch (children n)) as [c|] eqn:G.
    2:{ rewrite (_delete_cons_none n sz ch x G). unfold del_node. simpl.
        destruct (word_eq_dec y (ch :: x)) as [->|]; [|reflexivity].
        now rewrite mem_cons, G. }
    rewrite (_delete_cons_some n sz ch x c G). cbv zeta.
    pose proof (IH c sz) as IHc.
    destruct (del_prune (_delete c sz x)) eqn:P; unfold del_node at 1; simpl fst.
    + pose proof (prune_mem x c sz) as Hp.
      destruct y as [|c0 y].
      * destruct (word_eq_dec [] (ch :: x)); [discriminate | reflexivity].
      * rewrite !mem_cons. simpl children.
        destruct (ascii_dec c0 ch) as [->|Hc].
        -- rewrite dict_get_del_same, G.
           specialize (IHc y). rewrite (Hp y P) in IHc.
           destruct (word_eq_dec y x) as [->|Hy];
             destruct (word_eq_dec (ch :: _) (ch :: x)) as [He|He];
             congruence.
        -- rewrite dict_get_del_other by assumption.
           destruct (word_eq_dec (c0 :: y) (ch :: x)); congruence.
    + destruct y as [|c0 y].
      * destruct (word_eq_dec [] (ch :: x)); [discriminate | reflexivity].
      * rewrite !mem_cons. simpl children.
        destruct (ascii_dec c0 ch) as [->|Hc].
        -- rewrite dict_get_set_same, G, IHc.
           destruct (word_eq_dec y x) as [->|Hy];
             destruct (word_eq_dec (ch :: _) (ch :: x)) as [He|He];
             congruence.
        -- rewrite dict_get_set_other by assumption.
           destruct (word_eq_dec (c0 :: y) (ch :: x)); congruence.
Qed.

Lemma size_delete x : forall n sz,
  del_size (_delete n sz x) = (sz - if mem n x then 1 else 0)%Z.
Proof.
  induction x as [|ch x IH]; intros n sz.
  - rewrite _delete_nil, mem_nil. destruct (is_end n); unfold del_size; simpl; lia.
  - rewrite mem_cons. destruct (dict_get ch (children n)) as [c|] eqn:G.
    + rewrite (_delete_cons_some n sz ch x c G). cbv zeta.
      destruct (del_prune (_delete c sz x)); unfold del_size at 1; simpl; apply IH.
    + rewrite (_delete_cons_none n sz ch x G). unfold del_size. simpl. lia.
Qed.

Lemma _delete_absent x : forall n sz,
  mem n x = false -> _delete n sz x = (n, sz, false).
Proof.
  induction x as [|ch x IH]; intros n sz H.
  - rewrite _delete_nil. rewrite mem_nil in H. now rewrite H.
  - rewrite mem_cons in H. destruct (dict_get ch (children n)) as [c|] eqn:G.
    + rewrite (_delete_cons_some n sz ch x c G), (IH c sz H). simpl.
      unfold del_node. simpl.
      now rewrite (dict_set_get_id _ ch c (children n) G), node_eta.
    + apply _delete_cons_none. assumption.
Qed.

(** ** Invariants of the node graph *)

Lemma subnodes_eq n : subnodes n = n :: flat_map sub (children n).
Proof. now destruct n. Qed.

Lemma unique_keys_node cs e :
  unique_keys (mkNode cs e) <->
  NoDup (keys cs) /\ Forall (fun m => NoDup (keys (children m))) (flat_map sub cs).
Proof. unfold unique_keys. rewrite subnodes_eq. simpl. apply Forall_cons_iff. Qed.

Lemma unique_keys_eq n :
  unique_keys n <->
  NoDup (keys (children n)) /\
  Forall (fun m => NoDup (keys (children m))) (flat_map sub (children n)).
Proof. destruct n as [cs e]. apply unique_keys_node. Qed.

Lemma unique_keys_new : unique_keys new_node.
Proof. apply unique_keys_node. split; constructor. Qed.

Lemma unique_keys_child ch n c :
  unique_keys n -> dict_get ch (children n) = Some c -> unique_keys c.
Proof.
  intros H G. apply unique_keys_eq in H as [_ H].
  exact (Forall_flat_map_get _ _ sub _ ch c (children n) H G).
Qed.

Lemma unique_keys_child_or_new ch n :
  unique_keys n -> unique_keys (child_or_new ch n).
Proof.
  intros H. unfold child_or_new.
  destruct (dict_get ch (children n)) as [c|] eqn:G.
  - exact (unique_keys_child ch n c H G).
  - apply unique_keys_new.
Qed.

Lemma unique_keys_insert x : forall n sz,
  unique_keys n -> unique_keys (fst (insert_from n sz x)).
Proof.
  induction x as [|ch x IH]; intros n sz H.
  - simpl. destruct (is_end n); [assumption|]. simpl.
    apply unique_keys_node. now apply unique_keys_eq.
  - rewrite insert_from_cons. simpl. apply unique_keys_node.
    pose proof H as H0. apply unique_keys_eq in H0 as [H1 H2]. split.
    + now apply NoDup_keys_set.
    + apply Forall_flat_map_set; [assumption|].
      apply IH. now apply unique_keys_child_or_new.
Qed.

Lemma unique_keys_delete x : forall n sz,
  unique_keys n -> unique_keys (del_node (_delete n sz x)).
Proof.
  induction x as [|ch x IH]; intros n sz H.
  - rewrite _delete_nil. destruct (is_end n); [|assumption].
    unfold del_node. simpl. apply unique_keys_node. now apply unique_keys_eq.
  - destruct (dict_get ch (children n)) as [c|] eqn:G.
    2:{ now rewrite (_delete_cons_none n sz ch x G). }
    rewrite (_delete_cons_some n sz ch x c G). cbv zeta.
    pose proof H as H0. apply unique_keys_eq in H0 as [H1 H2].
    destruct (del_prune (_delete c sz x)); unfold del_node at 1; simpl;
      apply unique_keys_node; split.
    + now apply NoDup_keys_del.
    + now apply Forall_flat_map_del.
    + now apply NoDup_keys_set.
    + apply Forall_flat_map_set; [assumption|].
      apply IH. exact (unique_keys_child ch n c H G).
Qed.

(** *** The number of terminal nodes *)

Lemma terminal_nodes_eq n :
  terminal_nodes n =
  (if is_end n then 1 else 0) + tally_end (flat_map sub (children n)).
Proof.
  unfold terminal_nodes. rewrite subnodes_eq. simpl.
  destruct (is_end n); reflexivity.
Qed.

Lemma terminal_nodes_tally n : tally_end (subnodes n) = terminal_nodes n.
Proof. reflexivity. Qed.

Lemma terminal_nodes_new : terminal_nodes new_node = 0.
Proof. reflexivity. Qed.

Lemma terminal_nodes_insert x : forall n sz,
  terminal_nodes (fst (insert_from n sz x))
  = terminal_nodes n + (if mem n x then 0 else 1).
Proof.
  induction x as [|ch x IH]; intros n sz.
  - simpl. rewrite mem_nil. destruct (is_end n) eqn:E; simpl; [lia|].
    rewrite !terminal_nodes_eq. simpl. rewrite E. lia.
  - rewrite insert_from_cons. simpl fst.
    rewrite (terminal_nodes_eq (mkNode _ _)), (terminal_nodes_eq n). simpl.
    specialize (IH (child_or_new ch n) sz).
    rewrite mem_child_or_new in IH. unfold child_or_new in *.
    destruct (dict_get ch (children n)) as [c|] eqn:G.
    + pose proof (tally_set_old _ _ sub is_end ch
                    (fst (insert_from c sz x)) c (children n) G) as T.
      simpl in T. rewrite !terminal_nodes_tally in T. lia.
    + pose proof (tally_set_new _ _ sub is_end ch
                    (fst (insert_from new_node sz x)) (children n) G) as T.
      simpl in T. rewrite !terminal_nodes_tally in T.
      rewrite terminal_nodes_new in IH. lia.
Qed.

Lemma terminal_nodes_pruned x n sz :
  del_prune (_delete n sz x) = true ->
  terminal_nodes (del_node (_delete n sz x)) = 0.
Proof.
  intros H. apply prune_shape in H as [H1 H2].
  rewrite terminal_nodes_eq, H1, H2. reflexivity.
Qed.

Lemma terminal_nodes_delete x : forall n sz,
  unique_keys n ->
  terminal_nodes (del_node (_delete n sz x)) + (if mem n x then 1 else 0)
  = terminal_nodes n.
Proof.
  induction x as [|ch x IH]; intros n sz H.
  - rewrite _delete_nil, mem_nil.
    destruct (is_end n) eqn:E; unfold del_node; cbn [fst]; [|lia].
    rewrite !terminal_nodes_eq. simpl. rewrite E. lia.
  - rewrite mem_cons. destruct (dict_get ch (children n)) as [c|] eqn:G.
    2:{ rewrite (_delete_cons_none n sz ch x G). unfold del_node. cbn [fst]. lia. }
    rewrite (_delete_cons_some n sz ch x c G). cbv zeta.
    specialize (IH c sz (unique_keys_child ch n c H G)).
    apply unique_keys_eq in H as [H1 H2].
    destruct (del_prune (_delete c sz x)) eqn:P; unfold del_node at 1; simpl fst;
      rewrite (terminal_nodes_eq (mkNode _ _)), (terminal_nodes_eq n); simpl.
    + pose proof (tally_del _ _ sub is_end ch c (children n) H1 G) as T.
      simpl in T. rewrite !terminal_nodes_tally in T.
      rewrite (terminal_nodes_pruned x c sz P) in IH. lia.
    + pose proof (tally_set_old _ _ sub is_end ch
                    (del_node (_delete c sz x)) c (children n) G) as T.
      simpl in T. rewrite !terminal_nodes_tally in T. lia.
Qed.

(** *** Dead nodes *)

Lemma no_dead_branch_eq n :
  no_dead_branch n <-> Forall live (flat_map sub (children n)).
Proof. reflexivity. Qed.

Lemma dead_insert x n sz : dead (fst (insert_from n sz x)) = false.
Proof.
  destruct x as [|ch x].
  - simpl. destruct (is_end n) eqn:E; unfold dead; simpl; [now rewrite E | reflexivity].
  - rewrite insert_from_cons. unfold dead. simpl.
    pose proof (dict_set_not_nil _ ch (fst (insert_from (child_or_new ch n) sz x))
                  (children n)) as Hne.
    destruct (dict_set _ _ _); [congruence|]. simpl. apply andb_false_r.
Qed.

Lemma live_subnodes n :
  Forall live (subnodes n) <-> dead n = false /\ no_dead_branch n.
Proof. rewrite subnodes_eq. apply Forall_cons_iff. Qed.

Lemma no_dead_branch_child_or_new ch n :
  no_dead_branch n -> no_dead_branch (child_or_new ch n).
Proof.
  intros H. unfold child_or_new.
  destruct (dict_get ch (children n)) as [c|] eqn:G; [|constructor].
  pose proof (Forall_flat_map_get _ _ sub _ ch c (children n) H G) as Hc.
  now apply live_subnodes in Hc.
Qed.

Lemma no_dead_branch_insert x : forall n sz,
  no_dead_branch n -> no_dead_branch (fst (insert_from n sz x)).
Proof.
  induction x as [|ch x IH]; intros n sz H.
  - simpl. destruct (is_end n); assumption.
  - rewrite insert_from_cons. simpl fst. apply no_dead_branch_eq. simpl children.
    apply Forall_flat_map_set; [assumption|]. simpl.
    apply live_subnodes. split; [apply dead_insert|].
    apply IH. now apply no_dead_branch_child_or_new.
Qed.

Lemma no_dead_branch_delete x : forall n sz,
  no_dead_branch n ->
  no_dead_branch (del_node (_delete n sz x)) /\
  (del_prune (_delete n sz x) = false -> dead n = false ->
   dead (del_node (_delete n sz x)) = false).
Proof.
  induction x as [|ch x IH]; intros n sz H.
  - rewrite _delete_nil. destruct (is_end n) eqn:E; [|tauto].
    unfold del_node, del_prune, dead. simpl. split; [assumption|].
    now intros ->.
  - destruct (dict_get ch (children n)) as [c|] eqn:G.
    2:{ rewrite (_delete_cons_none n sz ch x G). tauto. }
    rewrite (_delete_cons_some n sz ch x c G). cbv zeta.
    pose proof (Forall_flat_map_get _ _ sub _ ch c (children n) H G) as Hc.
    simpl in Hc. apply live_subnodes in Hc as [Hc1 Hc2].
    destruct (IH c sz Hc2) as [IH1 IH2].
    destruct (del_prune (_delete c sz x)) eqn:P.
    + unfold del_node, del_prune. simpl.
      split; [now apply Forall_flat_map_del|].
      unfold dead. simpl. tauto.
    + unfold del_node at 1 3, del_prune at 1. simpl.
      split.
      * apply no_dead_branch_eq. simpl children.
        apply Forall_flat_map_set; [assumption|]. simpl.
        apply live_subnodes. auto.
      * intros _ _. unfold dead. simpl.
        pose proof (dict_set_not_nil _ ch (del_node (_delete c sz x))
                      (children n)) as Hne.
        destruct (dict_set _ _ _); [congruence|]. simpl. apply andb_false_r.
Qed.

(** ** The states of a trie *)

Lemma search_mem t x : search t x = mem (_root t) x.
Proof. reflexivity. Qed.

Lemma insert_cons t ch x :
  insert t (ch :: x) =
  mkTrie (fst (insert_from (_root t) (_size t) (ch :: x)))
         (snd (insert_from (_root t) (_size t) (ch :: x))).
Proof.
  unfold insert. now destruct (insert_from (_root t) (_size t) (ch :: x)).
Qed.

Lemma delete_cons t ch x :
  delete t (ch :: x) =
  (mkTrie (del_node (_delete (_root t) (_size t) (ch :: x)))
          (del_size (_delete (_root t) (_size t) (ch :: x))),
   search t (ch :: x)).
Proof.
  unfold delete.
  now destruct (_delete (_root t) (_size t) (ch :: x)) as [[r s] p].
Qed.

Lemma is_end_insert_cons n sz ch x :
  is_end (fst (insert_from n sz (ch :: x))) = is_end n.
Proof. now rewrite insert_from_cons. Qed.

Lemma is_end_delete_cons n sz ch x :
  is_end (del_node (_delete n sz (ch :: x))) = is_end n.
Proof.
  destruct (dict_get ch (children n)) as [c|] eqn:G.
  - rewrite (_delete_cons_some n sz ch x c G). cbv zeta.
    now destruct (del_prune (_delete c sz x)).
  - now rewrite (_delete_cons_none n sz ch x G).
Qed.

Lemma invariant_empty : invariant empty.
Proof.
  split; simpl; [apply unique_keys_new | reflexivity | reflexivity | constructor].
Qed.

Lemma invariant_insert t x : invariant t -> invariant (insert t x).
Proof.
  intros [Hk Hr Hs Hd]. destruct x as [|ch x]; [now split|].
  rewrite insert_cons. split; cbn [_root _size].
  - now apply unique_keys_insert.
  - now rewrite is_end_insert_cons.
  - rewrite size_insert_from, terminal_nodes_insert, Hs.
    destruct (mem (_root t) (ch :: x)); lia.
  - now apply no_dead_branch_insert.
Qed.

Lemma invariant_delete t x : invariant t -> invariant (fst (delete t x)).
Proof.
  intros [Hk Hr Hs Hd]. destruct x as [|ch x]; [now split|].
  rewrite delete_cons. split; cbn [fst _root _size].
  - now apply unique_keys_delete.
  - now rewrite is_end_delete_cons.
  - rewrite size_delete.
    pose proof (terminal_nodes_delete (ch :: x) (_root t) (_size t) Hk).
    destruct (mem (_root t) (ch :: x)); lia.
  - now apply no_dead_branch_delete.
Qed.

Lemma invariant_apply_op t o : invariant t -> invariant (apply_op t o).
Proof. destruct o; [apply invariant_insert | apply invariant_delete]. Qed.

Lemma invariant_fold ops : forall t,
  invariant t -> invariant (fold_left apply_op ops t).
Proof.
  induction ops as [|o ops IH]; intros t H; simpl; [assumption|].
  apply IH. now apply invariant_apply_op.
Qed.

Lemma reachable_invariant t : reachable t -> invariant t.
Proof. intros [ops ->]. apply invariant_fold, invariant_empty. Qed.

Lemma reachable_empty : reachable empty.
Proof. now exists []. Qed.

Lemma reachable_apply_op t o : reachable t -> reachable (apply_op t o).
Proof.
  intros [ops ->]. exists (ops ++ [o]). unfold run. now rewrite fold_left_app.
Qed.

(** ** The traversals *)

Lemma words_below_eq n path :
  words_below n path =
  (if is_end n then [path] else []) ++ flat_map (below path) (children n).
Proof. now destruct n. Qed.

Lemma fold_left_append {A B} (h : A -> list B) (l : list A) : forall acc,
  fold_left (fun acc a => acc ++ h a) l acc = acc ++ flat_map h l.
Proof.
  induction l as [|a l IH]; intros acc; simpl.
  - now rewrite app_nil_r.
  - now rewrite IH, app_assoc.
Qed.

Lemma fold_left_ext_in {A B} (f1 f2 : B -> A -> B) (l : list A) :
  Forall (fun a => forall acc, f1 acc a = f2 acc a) l ->
  forall acc, fold_left f1 l acc = fold_left f2 l acc.
Proof.
  induction 1 as [|a l Ha _ IH]; intros acc; simpl; [reflexivity|].
  now rewrite Ha, IH.
Qed.

(** Without a limit the traversal appends the words below the node. *)
Lemma words_dfs_unbounded n : forall path results,
  words_dfs None n path results = results ++ words_below n path.
Proof.
  induction n as [cs e IH] using TrieNode_tree_ind. intros path results.
  rewrite words_below_eq. simpl.
  rewrite (fold_left_ext_in _ (fun acc kv => acc ++ below path kv)).
  - rewrite fold_left_append. destruct e; [now rewrite <- app_assoc | reflexivity].
  - eapply Forall_impl; [|exact IH]. intros kv H acc. apply H.
Qed.

Lemma firstn_step {B} (K : nat) (acc a b : list B) :
  (acc ++ firstn (K - length acc) a)
    ++ firstn (K - length (acc ++ firstn (K - length acc) a)) b
  = acc ++ firstn (K - length acc) (a ++ b).
Proof.
  rewrite firstn_app, <- app_assoc. do 2 f_equal.
  rewrite length_app, length_firstn. f_equal. lia.
Qed.

Lemma fold_left_firstn {A B} (K : nat) (h : A -> list B) (l : list A) :
  forall acc,
    fold_left (fun acc a => acc ++ firstn (K - length acc) (h a)) l acc
    = acc ++ firstn (K - length acc) (flat_map h l).
Proof.
  induction l as [|a l IH]; intros acc; simpl.
  - now rewrite firstn_nil, app_nil_r.
  - now rewrite IH, firstn_step.
Qed.

(** With a limit it appends them until the list has [k] words. *)
Lemma words_dfs_bounded k n : forall path results,
  words_dfs (Some k) n path results
  = results ++ firstn (Z.to_nat k - length results) (words_below n path).
Proof.
  induction n as [cs e IH] using TrieNode_tree_ind. intros path results.
  rewrite words_below_eq. simpl.
  destruct (Z.of_nat (length results) >=? k)%Z eqn:E.
  - replace (Z.to_nat k - length results) with 0 by lia.
    now rewrite app_nil_r.
  - rewrite (fold_left_ext_in _
      (fun acc kv => acc ++ firstn (Z.to_nat k - length acc) (below path kv))).
    2:{ eapply Forall_impl; [|exact IH]. intros kv H acc. apply H. }
    rewrite fold_left_firstn. destruct e; [|reflexivity].
    assert (Hlt : length results < Z.to_nat k) by lia.
    rewrite length_app. simpl length.
    destruct (Z.to_nat k - length results) as [|m] eqn:D; [lia|].
    simpl. rewrite <- app_assoc. simpl. do 3 f_equal. lia.
Qed.

(** *** The words below a node *)

Lemma unique_keys_In cs e kv :
  unique_keys (mkNode cs e) -> In kv cs -> unique_keys (snd kv).
Proof.
  intros H Hin. apply unique_keys_node in H as [_ H].
  unfold unique_keys. rewrite Forall_forall in *. intros m Hm.
  apply H. apply in_flat_map. eauto.
Qed.

Lemma words_below_prefix n : forall path x,
  In x (words_below n path) -> exists s, x = path ++ s.
Proof.
  induction n as [cs e IH] using TrieNode_tree_ind. intros path x.
  rewrite words_below_eq. simpl. rewrite in_app_iff, in_flat_map.
  intros [H|[kv [Hkv H]]].
  - destruct e; [|contradiction]. destruct H as [<-|[]].
    exists []. now rewrite app_nil_r.
  - rewrite Forall_forall in IH. destruct (IH kv Hkv _ _ H) as [s ->].
    exists (fst kv :: s). now rewrite <- app_assoc.
Qed.

(** The traversal lists exactly the words stored below the node. *)
Lemma In_words_below n : unique_keys n -> forall path x,
  In x (words_below n path) <-> exists s, x = path ++ s /\ mem n s = true.
Proof.
  induction n as [cs e IH] using TrieNode_tree_ind. intros Hk path x.
  rewrite Forall_forall in IH.
  rewrite words_below_eq. simpl. rewrite in_app_iff, in_flat_map. split.
  - intros [H|[[c m] [Hkv H]]].
    + destruct e; [|contradiction]. destruct H as [<-|[]].
      exists []. now rewrite app_nil_r.
    + apply (IH _ Hkv (unique_keys_In cs e _ Hk Hkv)) in H as [s [-> Hs]].
      exists (c :: s). simpl. rewrite <- app_assoc. split; [reflexivity|].
      rewrite mem_cons. simpl.
      apply unique_keys_node in Hk as [Hnd _].
      now rewrite (In_dict_get _ c m cs Hnd Hkv).
  - intros [[|c s] [-> Hs]].
    + left. rewrite mem_nil in Hs. simpl in Hs. subst e.
      left. now rewrite app_nil_r.
    + right. rewrite mem_cons in Hs. simpl in Hs.
      destruct (dict_get c cs) as [m|] eqn:G; [|discriminate].
      apply dict_get_In in G. exists (c, m). split; [assumption|].
      apply (IH _ G (unique_keys_In cs e _ Hk G)). exists s.
      simpl. now rewrite <- app_assoc.
Qed.

Lemma NoDup_flat_map_below path cs :
  NoDup (keys cs) ->
  (forall kv, In kv cs -> forall p, NoDup (words_below (snd kv) p)) ->
  NoDup (flat_map (below path) cs).
Proof.
  induction cs as [|[c m] cs IH]; simpl; intros Hnd H; [constructor|].
  inversion Hnd as [|? ? Hnotin Hnd']; subst.
  apply NoDup_app.
  - apply (H (c, m)). now left.
  - apply IH; [assumption|]. intros kv Hkv. apply H. now right.
  - intros x Hx Hx'. apply words_below_prefix in Hx as [s ->].
    apply in_flat_map in Hx' as [[c' m'] [Hkv Hx']].
    apply words_below_prefix in Hx' as [s' Heq]. simpl in Heq.
    rewrite <- !app_assoc in Heq. apply app_inv_head in Heq.
    injection Heq as -> _. apply Hnotin.
    unfold keys. change c' with (fst (c', m')). now apply in_map.
Qed.

Lemma NoDup_words_below n : unique_keys n -> forall path,
  NoDup (words_below n path).
Proof.
  induction n as [cs e IH] using TrieNode_tree_ind. intros Hk path.
  rewrite Forall_forall in IH. rewrite words_below_eq. simpl.
  apply NoDup_app.
  - destruct e; repeat constructor. simpl. tauto.
  - apply NoDup_flat_map_below.
    + now apply unique_keys_node in Hk.
    + intros kv Hkv. apply (IH _ Hkv). exact (unique_keys_In cs e _ Hk Hkv).
  - intros x Hx Hx'. destruct e; [|contradiction]. destruct Hx as [<-|[]].
    apply in_flat_map in Hx' as [kv [_ Hx']].
    apply words_below_prefix in Hx' as [s Heq].
    apply (f_equal (@length ascii)) in Heq.
    rewrite !length_app in Heq. simpl in Heq. lia.
Qed.

Lemma length_words_below n : forall path,
  length (words_below n path) = terminal_nodes n.
Proof.
  induction n as [cs e IH] using TrieNode_tree_ind. intros path.
  rewrite words_below_eq, terminal_nodes_eq, length_app. simpl. f_equal.
  - now destruct e.
  - induction IH as [|kv cs Hkv _ IHcs]; simpl; [reflexivity|].
    rewrite length_app, tally_app, Hkv, IHcs. reflexivity.
Qed.

Lemma count_dfs_terminal n : forall count,
  count_dfs n count = (count + Z.of_nat (terminal_nodes n))%Z.
Proof.
  induction n as [cs e IH] using TrieNode_tree_ind. intros count.
  rewrite terminal_nodes_eq. simpl.
  assert (F : forall acc,
             fold_left (fun acc (kv : ascii * TrieNode) => count_dfs (snd kv) acc)
               cs acc
             = (acc + Z.of_nat (tally_end (flat_map sub cs)))%Z).
  { induction IH as [|kv cs Hkv _ IHcs]; intros acc; simpl; [lia|].
    rewrite IHcs, Hkv, tally_app, terminal_nodes_tally. lia. }
  rewrite F. destruct e; lia.
Qed.

(** ** Words and prefixes at the level of the trie *)

Lemma search_app t p s node :
  _traverse t p = Some node -> search t (p ++ s) = mem node s.
Proof.
  unfold search, _traverse. intros H. now rewrite traverse_from_app, H.
Qed.

Lemma search_prefix_traverse t p s :
  search t (p ++ s) = true -> exists node, _traverse t p = Some node.
Proof.
  unfold search, _traverse. rewrite traverse_from_app.
  destruct (traverse_from (_root t) p) as [node|]; [eauto | discriminate].
Qed.

Lemma unique_keys_traverse x : forall n m,
  unique_keys n -> traverse_from n x = Some m -> unique_keys m.
Proof.
  induction x as [|c x IH]; intros n m Hk; simpl.
  - now intros [= <-].
  - destruct (dict_get c (children n)) as [n'|] eqn:G; [|discriminate].
    apply IH. exact (unique_keys_child c n n' Hk G).
Qed.

(** The unbounded enumeration is the list of the stored words that start
    with the prefix. *)
Lemma In_get_words t p x :
  unique_keys (_root t) ->
  In x (get_words_with_prefix t p None) <-> is_prefix p x /\ search t x = true.
Proof.
  intros Hk. unfold get_words_with_prefix.
  destruct (_traverse t p) as [node|] eqn:T.
  - rewrite words_dfs_unbounded. simpl.
    rewrite (In_words_below node (unique_keys_traverse p _ _ Hk T)).
    split.
    + intros [s [-> Hs]]. split; [now exists s|].
      now rewrite (search_app t p s node T).
    + intros [[s ->] Hs]. exists s. split; [reflexivity|].
      now rewrite <- (search_app t p s node T).
  - split; [contradiction|]. intros [[s ->] Hs].
    apply search_prefix_traverse in Hs as [node Hn]. congruence.
Qed.

Lemma NoDup_get_words t p :
  unique_keys (_root t) -> NoDup (get_words_with_prefix t p None).
Proof.
  intros Hk. unfold get_words_with_prefix.
  destruct (_traverse t p) as [node|] eqn:T; [|constructor].
  rewrite words_dfs_unbounded. simpl.
  apply NoDup_words_below. exact (unique_keys_traverse p _ _ Hk T).
Qed.

Lemma In_firstn {A} (x : A) (l : list A) : forall n,
  In x (firstn n l) -> In x l.
Proof.
  induction l as [|a l IH]; intros [|n]; simpl; try tauto.
  intros [H|H]; [now left | right; now apply (IH n)].
Qed.

Lemma get_words_limit t p k :
  get_words_with_prefix t p (Some k)
  = firstn (Z.to_nat k) (get_words_with_prefix t p None).
Proof.
  unfold get_words_with_prefix. destruct (_traverse t p) as [node|].
  - rewrite words_dfs_bounded, words_dfs_unbounded. simpl.
    now rewrite Nat.sub_0_r.
  - now rewrite firstn_nil.
Qed.

Lemma count_prefix_length t p :
  count_prefix t p = Z.of_nat (length (get_words_with_prefix t p None)).
Proof.
  unfold count_prefix, get_words_with_prefix.
  destruct (_traverse t p) as [node|]; [|reflexivity].
  rewrite count_dfs_terminal, words_dfs_unbounded. simpl.
  now rewrite length_words_below.
Qed.

(** ** The counter along a history *)

Lemma size_insert t x :
  size (insert t x)
  = (size t + match x with
              | [] => 0
              | _ :: _ => if search t x then 0 else 1
              end)%Z.
Proof.
  destruct x as [|ch x]; [simpl; lia|].
  rewrite insert_cons. unfold size. cbn [_size].
  now rewrite size_insert_from.
Qed.

Lemma size_delete_trie t x :
  size (fst (delete t x)) = (size t - if snd (delete t x) then 1 else 0)%Z.
Proof.
  destruct x as [|ch x]; [simpl; lia|].
  rewrite delete_cons. unfold size. cbn [fst snd _size].
  now rewrite size_delete.
Qed.

Lemma size_fold ops : forall t,
  size (fold_left apply_op ops t)
  = (size t + Z.of_nat (added t ops) - Z.of_nat (removed t ops))%Z.
Proof.
  induction ops as [|o ops IH]; intros t; cbn [fold_left added removed]; [lia|].
  rewrite IH. destruct o as [x|x]; cbn [apply_op].
  - rewrite size_insert. destruct x as [|ch x]; [lia|].
    destruct (search t (ch :: x)); lia.
  - rewrite size_delete_trie. destruct (snd (delete t x)); lia.
Qed.

Lemma insert_present t x : search t x = true -> insert t x = t.
Proof.
  intros H. destruct x as [|ch x]; [reflexivity|].
  rewrite insert_cons, (insert_from_present (ch :: x) (_root t) (_size t) H).
  now destruct t.
Qed.

Lemma delete_absent t x : search t x = false -> delete t x = (t, false).
Proof.
  intros H. destruct x as [|ch x]; [reflexivity|].
  rewrite delete_cons, (_delete_absent (ch :: x) (_root t) (_size t) H), H.
  now destruct t.
Qed.

(** ** A stored word above another one *)

Lemma map_dict_set {V B} (h : ascii * V -> B) k v v' (d : dict V) :
  dict_get k d = Some v' -> h (k, v) = h (k, v') ->
  map h (dict_set k v d) = map h d.
Proof.
  induction d as [|[k0 v0] d IH]; simpl; [discriminate|].
  destruct (Ascii.eqb k k0) eqn:E; simpl.
  - apply Ascii.eqb_eq in E. subst k0. intros [= ->] ->. reflexivity.
  - intros G Hh. now rewrite IH.
Qed.

Lemma skeleton_eq n :
  skeleton n =
  mkNode (map (fun kv : ascii * TrieNode => (fst kv, skeleton (snd kv)))
            (children n)) false.
Proof. now destruct n. Qed.

(** Unmarking a node that has children removes no node. *)
Lemma _delete_inner x : forall n sz m,
  traverse_from n x = Some m -> is_end m = true -> children m <> [] ->
  del_prune (_delete n sz x) = false /\
  skeleton (del_node (_delete n sz x)) = skeleton n.
Proof.
  induction x as [|ch x IH]; intros n sz m; simpl traverse_from.
  - intros [= <-] He Hc. rewrite _delete_nil, He. unfold del_prune, del_node.
    simpl. split; [|now rewrite (skeleton_eq n)].
    destruct (children n); [congruence | reflexivity].
  - destruct (dict_get ch (children n)) as [c|] eqn:G; [|discriminate].
    intros T He Hc. destruct (IH c sz m T He Hc) as [IH1 IH2].
    rewrite (_delete_cons_some n sz ch x c G). cbv zeta. rewrite IH1.
    unfold del_prune at 1, del_node at 1. simpl. split; [reflexivity|].
    rewrite (skeleton_eq n). f_equal.
    apply (map_dict_set _ ch _ c (children n) G). simpl. now rewrite IH2.
Qed.

(** ** The tests of [tests/test_trie.py] *)

Example test_insert_and_search :
  let t := run [Insert (w "cat"); Insert (w "car"); Insert (w "dog")] in
  search t (w "cat") = true /\ search t (w "car") = true /\
  search t (w "dog") = true /\ search t (w "ca") = false /\
  search t (w "do") = false /\ search t (w "cow") = false /\ size t = 3%Z.
Proof. vm_compute. repeat split. Qed.

Example test_starts_with_and_prefix :
  starts_with t_apps (w "app") = true /\ starts_with t_apps (w "ap") = true /\
  starts_with t_apps (w "az") = false /\
  get_words_with_prefix t_apps (w "app") None
  = [w "apple"; w "application"; w "applied"].
Proof. vm_compute. repeat split. Qed.

Example test_delete :
  search t_cars (w "car") = true /\ search t_cars (w "card") = true /\
  search t_cars (w "care") = true /\
  snd (delete t_cars (w "card")) = true /\
  search (fst (delete t_cars (w "card"))) (w "card") = false /\
  search (fst (delete t_cars (w "card"))) (w "car") = true /\
  search (fst (delete t_cars (w "card"))) (w "care") = true /\
  snd (delete (fst (delete t_cars (w "card"))) (w "cart")) = false.
Proof. vm_compute. repeat split. Qed.

Example test_count_prefix :
  count_prefix t_cats (w "ca") = 3%Z /\ count_prefix t_cats (w "car") = 2%Z /\
  count_prefix t_cats (w "cart") = 1%Z /\ count_prefix t_cats (w "z") = 0%Z.
Proof. vm_compute. repeat split. Qed.

(** ** The properties of the specification *)

Lemma reachable_t_cars : reachable t_cars.
Proof.
  now exists [Insert (w "car"); Insert (w "card"); Insert (w "care")].
Qed.

Lemma root_not_stored t : reachable t -> search t [] = false.
Proof. intros H. exact (inv_root t (reachable_invariant t H)). Qed.

Lemma delete_keeps_other_words_aux t V W :
  V <> W -> search t V = true -> search (fst (delete t W)) V = true.
Proof.
  intros Hne HV. destruct W as [|ch x]; [exact HV|].
  rewrite delete_cons. cbn [fst]. rewrite search_mem. cbn [_root].
  rewrite mem_delete. destruct (word_eq_dec V (ch :: x)); [contradiction|].
  exact HV.
Qed.

Lemma delete_forgets_word t ch x :
  search (fst (delete t (ch :: x))) (ch :: x) = false.
Proof.
  rewrite delete_cons. cbn [fst]. rewrite search_mem. cbn [_root].
  rewrite mem_delete. destruct (word_eq_dec (ch :: x) (ch :: x)); congruence.
Qed.

(** C1: [delete(W)] returns [True] exactly when [search(W)] was [True] just
    before the call, and after [delete(W)] of a non-empty [W] the word is not
    found any more. *)
Theorem delete_returns_presence (t : Trie) (W : word) :
  reachable t ->
  snd (delete t W) = search t W /\
  (W <> [] -> search (fst (delete t W)) W = false).
Proof.
  intros Hr. destruct W as [|ch x].
  - split; [|congruence]. simpl. symmetry. now apply root_not_stored.
  - split; [now rewrite delete_cons | intros _; apply delete_forgets_word].
Qed.

Lemma delete_returns_presence_witness :
  reachable t_cars /\
  snd (delete t_cars (w "card")) = search t_cars (w "card") /\
  (w "card" <> [] -> search (fst (delete t_cars (w "card"))) (w "card") = false).
Proof.
  split; [exact reachable_t_cars|].
  exact (delete_returns_presence t_cars (w "card") reachable_t_cars).
Defined.

(** C2, as the specification words it, fails: a word that is inserted, deleted
    and inserted again is one distinct word ever inserted and one distinct
    word deleted, and the trie holds one word. *)
Lemma size_is_not_distinct_difference :
  let ops := [Insert (w "a"); Delete (w "a"); Insert (w "a")] in
  size (run ops) = 1%Z /\
  (Z.of_nat (distinct (inserted_words ops))
   - Z.of_nat (distinct (deleted_words empty ops)))%Z = 0%Z /\
  (size (run ops) =?
   Z.of_nat (distinct (inserted_words ops))
   - Z.of_nat (distinct (deleted_words empty ops)))%Z = false.
Proof. vm_compute. repeat split. Qed.

(** C2, amended: in every state reached from the empty trie by a sequence of
    inserts and deletes, [size()] is the number of nodes whose terminal flag is
    set, which is the number of inserts that stored a word not stored at that
    moment minus the number of deletes that returned [True]; the insert of a
    stored word and the delete of a word that is not stored leave [size()]
    as it is. *)
Theorem size_counts_terminal_nodes (ops : list op) :
  let t := run ops in
  size t = Z.of_nat (terminal_nodes (_root t)) /\
  size t = (Z.of_nat (added empty ops) - Z.of_nat (removed empty ops))%Z /\
  (forall x, search t x = true -> size (insert t x) = size t) /\
  (forall x, search t x = false -> size (fst (delete t x)) = size t).
Proof.
  intros t. repeat split.
  - apply (inv_size t). apply reachable_invariant. now exists ops.
  - unfold t, run. rewrite size_fold. simpl. lia.
  - intros x H. now rewrite (insert_present t x H).
  - intros x H. now rewrite (delete_absent t x H).
Qed.

(** C3: in every reachable state, when a delete has completed no node other
    than the root is both unmarked and without children. *)
Theorem no_dead_branch_after_delete (t : Trie) (W : word) :
  reachable t -> no_dead_branch (_root (fst (delete t W))).
Proof.
  intros Hr. apply inv_dead, invariant_delete, reachable_invariant, Hr.
Qed.

Lemma no_dead_branch_after_delete_witness :
  reachable t_cars /\ no_dead_branch (_root (fst (delete t_cars (w "card")))).
Proof.
  split; [exact reachable_t_cars|].
  exact (no_dead_branch_after_delete t_cars (w "card") reachable_t_cars).
Defined.

(** C4: delete does not prune too much: a stored word [V] other than the
    deleted word [W] is still found after [delete(W)]. *)
Theorem delete_keeps_other_words (t : Trie) (V W : word) :
  V <> W -> search t V = true -> search t W = true ->
  search (fst (delete t W)) V = true.
Proof.
  intros Hne HV _. now apply delete_keeps_other_words_aux.
Qed.

Lemma delete_keeps_other_words_witness :
  search (fst (delete t_cars (w "card"))) (w "car") = true /\
  search (fst (delete t_cars (w "card"))) (w "care") = true /\
  search (fst (delete t_cars (w "card"))) (w "card") = false.
Proof.
  split; [|split].
  - apply (delete_keeps_other_words t_cars (w "car") (w "card"));
      [discriminate | reflexivity | reflexivity].
  - apply (delete_keeps_other_words t_cars (w "care") (w "card"));
      [discriminate | reflexivity | reflexivity].
  - reflexivity.
Defined.

(** C5: [count_prefix(P)] is the number of distinct stored words that start
    with [P]; for the empty prefix it is [size()], and it is 0 when the walk
    along [P] finds no node. *)
Theorem count_prefix_counts_words (t : Trie) (P : word) :
  reachable t ->
  (exists l : list word,
      NoDup l /\
      (forall x, In x l <-> is_prefix P x /\ search t x = true) /\
      count_prefix t P = Z.of_nat (length l)) /\
  count_prefix t [] = size t /\
  (_traverse t P = None -> count_prefix t P = 0%Z).
Proof.
  intros Hr. pose proof (reachable_invariant t Hr) as [Hk _ Hs _].
  split; [|split].
  - exists (get_words_with_prefix t P None). split; [|split].
    + now apply NoDup_get_words.
    + intros x. now apply In_get_words.
    + apply count_prefix_length.
  - unfold count_prefix, size. simpl. rewrite count_dfs_terminal, Hs. lia.
  - unfold count_prefix. now intros ->.
Qed.

Lemma reachable_t_cats : reachable t_cats.
Proof.
  now exists [Insert (w "cat"); Insert (w "car"); Insert (w "cart");
              Insert (w "dog")].
Qed.

Lemma count_prefix_counts_words_witness :
  reachable t_cats /\
  (exists l : list word,
      NoDup l /\
      (forall x, In x l <-> is_prefix (w "ca") x /\ search t_cats x = true) /\
      count_prefix t_cats (w "ca") = Z.of_nat (length l)) /\
  count_prefix t_cats [] = size t_cats.
Proof.
  split; [exact reachable_t_cats|].
  destruct (count_prefix_counts_words t_cats (w "ca") reachable_t_cats)
    as [H1 [H2 _]].
  exact (conj H1 H2).
Defined.

(** C6: with a positive limit [k], [get_words_with_prefix(P, k)] returns at
    most [k] words, each of which starts with [P] and is found by [search];
    without a limit it returns the stored words that start with [P], every one
    once. *)
Theorem get_words_with_prefix_spec (t : Trie) (P : word) (k : Z) :
  reachable t -> (0 < k)%Z ->
  (Z.of_nat (length (get_words_with_prefix t P (Some k))) <= k)%Z /\
  (forall x, In x (get_words_with_prefix t P (Some k)) ->
             is_prefix P x /\ search t x = true) /\
  NoDup (get_words_with_prefix t P None) /\
  (forall x, In x (get_words_with_prefix t P None) <->
             is_prefix P x /\ search t x = true).
Proof.
  intros Hr Hk. pose proof (reachable_invariant t Hr) as [Hu _ _ _].
  rewrite get_words_limit. split; [|split; [|split]].
  - rewrite length_firstn. lia.
  - intros x H. apply In_firstn in H. now apply (In_get_words t P x Hu).
  - now apply NoDup_get_words.
  - intros x. now apply In_get_words.
Qed.

Lemma get_words_with_prefix_spec_witness :
  (reachable t_cats /\ (0 < 2)%Z) /\
  (Z.of_nat (length (get_words_with_prefix t_cats (w "ca") (Some 2%Z))) <= 2)%Z /\
  (forall x, In x (get_words_with_prefix t_cats (w "ca") (Some 2%Z)) ->
             is_prefix (w "ca") x /\ search t_cats x = true) /\
  NoDup (get_words_with_prefix t_cats (w "ca") None) /\
  (forall x, In x (get_words_with_prefix t_cats (w "ca") None) <->
             is_prefix (w "ca") x /\ search t_cats x = true).
Proof.
  split; [split; [exact reachable_t_cats | reflexivity]|].
  exact (get_words_with_prefix_spec t_cats (w "ca") 2 reachable_t_cats eq_refl).
Defined.

(** C7: the delete of a word that is not stored returns [False] and leaves
    the trie as it was: the same counter and the same node graph. *)
Theorem delete_absent_changes_nothing (t : Trie) (W : word) :
  search t W = false ->
  delete t W = (t, false) /\
  size (fst (delete t W)) = size t /\
  _root (fst (delete t W)) = _root t.
Proof.
  intros H. now rewrite (delete_absent t W H).
Qed.

Lemma delete_absent_changes_nothing_witness :
  search t_cars (w "cart") = false /\
  delete t_cars (w "cart") = (t_cars, false) /\
  size (fst (delete t_cars (w "cart"))) = size t_cars /\
  _root (fst (delete t_cars (w "cart"))) = _root t_cars.
Proof.
  split; [reflexivity|].
  exact (delete_absent_changes_nothing t_cars (w "cart") eq_refl).
Defined.

(** C8: the empty word is handled by every operation: [insert] and [delete]
    of it change nothing and [delete] returns [False], [starts_with] of it is
    [True], [search] of it is the flag of the root, which is [False] in every
    reachable state. *)
Theorem empty_word_is_defined (t : Trie) :
  insert t [] = t /\
  delete t [] = (t, false) /\
  starts_with t [] = true /\
  search t [] = is_end (_root t) /\
  (reachable t -> search t [] = false).
Proof.
  repeat split. apply root_not_stored.
Qed.

Lemma empty_word_is_defined_witness : search t_cars [] = false.
Proof.
  exact (proj2 (proj2 (proj2 (proj2 (empty_word_is_defined t_cars))))
           reachable_t_cars).
Defined.

(** C9: with a limit that is zero or negative [get_words_with_prefix] returns
    the empty list, whatever is stored. *)
Theorem nonpositive_limit_gives_nothing (t : Trie) (P : word) (k : Z) :
  (k <= 0)%Z -> get_words_with_prefix t P (Some k) = [].
Proof.
  intros Hk. rewrite get_words_limit.
  replace (Z.to_nat k) with 0 by lia. reflexivity.
Qed.

Lemma nonpositive_limit_gives_nothing_witness :
  search t_cats (w "cat") = true /\
  get_words_with_prefix t_cats (w "ca") (Some (-1)%Z) = [] /\
  get_words_with_prefix t_cats (w "ca") (Some 0%Z) = [].
Proof.
  split; [reflexivity|]. split.
  - apply (nonpositive_limit_gives_nothing t_cats (w "ca") (-1)). discriminate.
  - apply (nonpositive_limit_gives_nothing t_cats (w "ca") 0). discriminate.
Defined.

(** C10: when a stored word [W] is a strict prefix of a stored word [X],
    [delete(W)] returns [True] and removes no node: afterwards [W] is not
    found, [starts_with(W)] is still [True] and [X] is still found. *)
Theorem delete_prefix_word_prunes_nothing (t : Trie) (W X : word) :
  reachable t ->
  search t W = true -> search t X = true -> is_prefix W X -> W <> X ->
  snd (delete t W) = true /\
  skeleton (_root (fst (delete t W))) = skeleton (_root t) /\
  search (fst (delete t W)) W = false /\
  starts_with (fst (delete t W)) W = true /\
  search (fst (delete t W)) X = true.
Proof.
  intros Hr HW HX [s ->] Hne.
  assert (HX' : search (fst (delete t W)) (W ++ s) = true).
  { apply delete_keeps_other_words_aux; [congruence | assumption]. }
  destruct W as [|ch x].
  { rewrite (root_not_stored t Hr) in HW. discriminate. }
  split; [now rewrite delete_cons|].
  split; [|split; [apply delete_forgets_word|split; [|exact HX']]].
  - unfold search, _traverse in HW, HX. rewrite traverse_from_app in HX.
    destruct (traverse_from (_root t) (ch :: x)) as [m|] eqn:T; [|discriminate].
    rewrite delete_cons. cbn [fst _root].
    apply (_delete_inner (ch :: x) (_root t) (_size t) m T HW).
    destruct s as [|c s]; [now rewrite app_nil_r in Hne|]. simpl in HX.
    destruct (children m); discriminate.
  - apply search_prefix_traverse in HX' as [node Hn].
    unfold starts_with. now rewrite Hn.
Qed.

Lemma delete_prefix_word_prunes_nothing_witness :
  reachable t_cars /\
  snd (delete t_cars (w "car")) = true /\
  skeleton (_root (fst (delete t_cars (w "car")))) = skeleton (_root t_cars) /\
  search (fst (delete t_cars (w "car"))) (w "car") = false /\
  starts_with (fst (delete t_cars (w "car"))) (w "car") = true /\
  search (fst (delete t_cars (w "car"))) (w "card") = true.
Proof.
  split; [exact reachable_t_cars|].
  apply (delete_prefix_word_prunes_nothing t_cars (w "car") (w "card")
           reachable_t_cars).
  - reflexivity.
  - reflexivity.
  - now exists (w "d").
  - discriminate.
Defined.

(** ** Further properties of the operations *)

Lemma startswith_is_prefix x : forall p,
  startswith x p = true <-> is_prefix p x.
Proof.
  induction x as [|b x IH]; intros [|a p]; simpl.
  - split; [now exists [] | reflexivity].
  - split; [discriminate | intros [s H]; discriminate].
  - split; [now exists (b :: x) | reflexivity].
  - rewrite andb_true_iff, Ascii.eqb_eq, IH. split.
    + intros [-> [s ->]]. now exists s.
    + intros [s [= -> ->]]. split; [reflexivity | now exists s].
Qed.

Lemma search_insert t W V :
  search (insert t W) V
  = match W with
    | [] => search t V
    | _ :: _ => if word_eq_dec V W then true else search t V
    end.
Proof.
  destruct W as [|ch x]; [reflexivity|].
  rewrite insert_cons, !search_mem. cbn [_root]. apply mem_insert_from.
Qed.

Lemma search_delete t W V :
  search (fst (delete t W)) V
  = match W with
    | [] => search t V
    | _ :: _ => if word_eq_dec V W then false else search t V
    end.
Proof.
  destruct W as [|ch x]; [reflexivity|].
  rewrite delete_cons. cbn [fst]. rewrite !search_mem. cbn [_root].
  apply mem_delete.
Qed.

(** X1: after [insert(W)] the words found are [W], when it is not empty, and
    the words found before. *)
Theorem search_after_insert (t : Trie) (W V : word) :
  search (insert t W) V = true <-> (W <> [] /\ V = W) \/ search t V = true.
Proof.
  rewrite search_insert. destruct W as [|ch x].
  - split; [tauto | intros [[H _]|H]; [congruence | exact H]].
  - destruct (word_eq_dec V (ch :: x)) as [->|Hne].
    + split; [left; split; [discriminate | reflexivity] | reflexivity].
    + split; [tauto | intros [[_ H]|H]; [contradiction | exact H]].
Qed.

(** X2: after [delete(W)] the words found are the words found before other
    than [W]; the empty [W] takes nothing away. A delete never makes a word
    found that was not. *)
Theorem search_after_delete (t : Trie) (W V : word) :
  search (fst (delete t W)) V = true <->
  search t V = true /\ (V <> W \/ W = []).
Proof.
  rewrite search_delete. destruct W as [|ch x].
  - split; [intros H; split; [exact H | now right] | tauto].
  - destruct (word_eq_dec V (ch :: x)) as [->|Hne].
    + split; [discriminate | intros [_ [H|H]]; [congruence | discriminate]].
    + split; [intros H; split; [exact H | now left] | tauto].
Qed.

(** X3: [insert] is idempotent on the whole state (nodes, order of the
    children, counter), and the insert of a stored word changes nothing. *)
Theorem insert_twice_is_insert_once (t : Trie) (W : word) :
  insert (insert t W) W = insert t W /\
  (search t W = true -> insert t W = t).
Proof.
  split; [|apply insert_present].
  destruct W as [|ch x]; [reflexivity|].
  apply insert_present. rewrite search_insert.
  now destruct (word_eq_dec (ch :: x) (ch :: x)).
Qed.

Lemma insert_twice_is_insert_once_witness :
  search t_cars (w "card") = true /\ insert t_cars (w "card") = t_cars.
Proof.
  split; [reflexivity|].
  exact (proj2 (insert_twice_is_insert_once t_cars (w "card")) eq_refl).
Defined.

Lemma dict_set_set {V} k (v v' : V) (d : dict V) :
  dict_set k v (dict_set k v' d) = dict_set k v d.
Proof.
  induction d as [|[k0 v0] d IH]; simpl.
  - now rewrite Ascii.eqb_refl.
  - destruct (Ascii.eqb k k0) eqn:E; simpl.
    + now rewrite Ascii.eqb_refl.
    + now rewrite E, IH.
Qed.

Lemma dict_del_set_new {V} k (v : V) (d : dict V) :
  dict_get k d = None -> dict_del k (dict_set k v d) = d.
Proof.
  induction d as [|[k0 v0] d IH]; simpl.
  - now rewrite Ascii.eqb_refl.
  - destruct (Ascii.eqb k k0) eqn:E; [discriminate|]. simpl. rewrite E.
    intros G. now rewrite IH.
Qed.

Lemma dead_child ch n c :
  no_dead_branch n -> dict_get ch (children n) = Some c -> dead c = false.
Proof.
  intros H G.
  pose proof (Forall_flat_map_get _ _ sub _ ch c (children n) H G) as Hc.
  now apply live_subnodes in Hc.
Qed.

(** Deleting the word that was just inserted gives the node back. *)
Lemma delete_insert_from x : forall n sz sz',
  no_dead_branch n -> mem n x = false ->
  _delete (fst (insert_from n sz x)) sz' x = (n, (sz' - 1)%Z, dead n).
Proof.
  induction x as [|ch x IH]; intros n sz sz' Hd Hm.
  - rewrite mem_nil in Hm. simpl insert_from. rewrite Hm. cbn [fst].
    rewrite _delete_nil. cbn [is_end children]. unfold dead. rewrite Hm.
    destruct n as [cs e]. simpl in *. now subst e.
  - rewrite insert_from_cons. cbn [fst].
    set (c := child_or_new ch n).
    set (c1 := fst (insert_from c sz x)).
    assert (G1 : dict_get ch (children (mkNode (dict_set ch c1 (children n))
                                          (is_end n))) = Some c1)
      by apply dict_get_set_same.
    rewrite (_delete_cons_some _ sz' ch x c1 G1). cbv zeta.
    unfold c1. rewrite (IH c sz sz').
    2:{ now apply no_dead_branch_child_or_new. }
    2:{ unfold c. now rewrite mem_child_or_new. }
    unfold del_prune, del_node, del_size. cbn [fst snd children is_end].
    unfold c, child_or_new.
    destruct (dict_get ch (children n)) as [c0|] eqn:G.
    + rewrite (dead_child ch n c0 Hd G), dict_set_set.
      rewrite (dict_set_get_id _ ch c0 (children n) G), node_eta.
      unfold dead. destruct (children n); [discriminate|].
      simpl. now rewrite andb_false_r.
    + change (dead new_node) with true. cbv iota.
      rewrite (dict_del_set_new ch _ (children n) G), node_eta. reflexivity.
Qed.

(** X4: in a reachable state, [delete(W)] right after the [insert(W)] of a
    word that was not stored returns [True] and gives back the trie as it
    was: the same nodes in the same order and the same counter. *)
Theorem delete_undoes_insert (t : Trie) (W : word) :
  reachable t -> W <> [] -> search t W = false ->
  delete (insert t W) W = (t, true).
Proof.
  intros Hr Hne Hs. destruct W as [|ch x]; [congruence|].
  pose proof (inv_dead t (reachable_invariant t Hr)) as Hd.
  rewrite delete_cons, search_insert.
  destruct (word_eq_dec (ch :: x) (ch :: x)); [|congruence].
  rewrite insert_cons. cbn [_root _size].
  rewrite (delete_insert_from (ch :: x) (_root t) (_size t) _ Hd Hs).
  unfold del_node, del_size. cbn [fst snd].
  rewrite size_insert_from.
  rewrite search_mem in Hs. rewrite Hs.
  destruct t as [r s]. cbn [_root _size]. do 2 f_equal. lia.
Qed.

Lemma delete_undoes_insert_witness :
  (reachable t_cars /\ w "cart" <> [] /\ search t_cars (w "cart") = false) /\
  delete (insert t_cars (w "cart")) (w "cart") = (t_cars, true).
Proof.
  split; [split; [exact reachable_t_cars | split; [discriminate | reflexivity]]|].
  apply (delete_undoes_insert t_cars (w "cart") reachable_t_cars).
  - discriminate.
  - reflexivity.
Defined.

(** X5: [insert(W)] right after the [delete(W)] of a stored word brings back
    the same set of words and the same counter. *)
Theorem insert_after_delete_restores_words (t : Trie) (W : word) :
  search t W = true ->
  (forall V, search (insert (fst (delete t W)) W) V = search t V) /\
  size (insert (fst (delete t W)) W) = size t.
Proof.
  intros Hs. split.
  - intros V. rewrite search_insert, search_delete.
    destruct W as [|ch x]; [reflexivity|].
    destruct (word_eq_dec V (ch :: x)) as [->|]; [now rewrite Hs | reflexivity].
  - rewrite size_insert, size_delete_trie, search_delete.
    destruct W as [|ch x]; [simpl; lia|].
    rewrite delete_cons. cbn [snd]. rewrite Hs.
    destruct (word_eq_dec (ch :: x) (ch :: x)); [lia | congruence].
Qed.

Lemma insert_after_delete_restores_words_witness :
  search t_cars (w "card") = true /\
  (forall V, search (insert (fst (delete t_cars (w "card"))) (w "card")) V
             = search t_cars V) /\
  size (insert (fst (delete t_cars (w "card"))) (w "card")) = size t_cars.
Proof.
  split; [reflexivity|].
  exact (insert_after_delete_restores_words t_cars (w "card") eq_refl).
Defined.

Lemma has_path_cons n c p :
  has_path n (c :: p) =
  match dict_get c (children n) with Some m => has_path m p | None => false end.
Proof. unfold has_path. simpl. now destruct (dict_get c (children n)). Qed.

Lemma starts_with_has_path t p : starts_with t p = has_path (_root t) p.
Proof. reflexivity. Qed.

Lemma has_path_insert x : forall n sz p,
  has_path (fst (insert_from n sz x)) p = has_path n p || startswith x p.
Proof.
  induction x as [|ch x IH]; intros n sz p.
  - simpl insert_from. destruct p as [|c p].
    + now destruct (is_end n).
    + rewrite orb_false_r. destruct (is_end n); [reflexivity|].
      now rewrite !has_path_cons.
  - rewrite insert_from_cons. cbn [fst]. destruct p as [|c p]; [reflexivity|].
    rewrite !has_path_cons. cbn [children startswith].
    destruct (ascii_dec c ch) as [->|Hc].
    + rewrite dict_get_set_same, IH, Ascii.eqb_refl. cbn [andb].
      unfold child_or_new.
      destruct (dict_get ch (children n)); [reflexivity|].
      destruct p as [|c' p]; [now destruct x | reflexivity].
    + rewrite dict_get_set_other by assumption.
      apply Ascii.eqb_neq in Hc. rewrite Ascii.eqb_sym in Hc.
      rewrite Ascii.eqb_sym, Hc. cbn [andb]. now rewrite orb_false_r.
Qed.

(** X6: after [insert(W)], [starts_with(P)] is true when it was true before
    or when [W] starts with [P], and only then. *)
Theorem starts_with_after_insert (t : Trie) (W P : word) :
  starts_with (insert t W) P = starts_with t P || startswith W P.
Proof.
  destruct W as [|ch x].
  - destruct P as [|c p]; [reflexivity|]. simpl insert. cbn [startswith].
    now rewrite orb_false_r.
  - rewrite insert_cons, !starts_with_has_path. cbn [_root].
    apply has_path_insert.
Qed.

(** *** Paths and stored words *)

(** Below a node that is not dead, in a tree without dead branches, some
    word is stored. *)
Lemma live_has_word n :
  dead n = false -> no_dead_branch n -> exists s, mem n s = true.
Proof.
  induction n as [cs e IH] using TrieNode_tree_ind. intros Hl Hd.
  destruct e; [now exists []|].
  destruct cs as [|[k c] cs]; [discriminate|].
  inversion IH as [|? ? IHc _]; subst. simpl in IHc.
  apply no_dead_branch_eq in Hd. simpl in Hd.
  apply Forall_app in Hd as [Hc _]. apply live_subnodes in Hc as [Hc1 Hc2].
  destruct (IHc Hc1 Hc2) as [s Hs]. exists (k :: s).
  rewrite mem_cons. simpl. now rewrite Ascii.eqb_refl.
Qed.

Lemma subnodes_traverse (Q : TrieNode -> Prop) x : forall n m,
  traverse_from n x = Some m ->
  Forall Q (subnodes n) -> Forall Q (subnodes m).
Proof.
  induction x as [|c x IH]; intros n m; simpl.
  - now intros [= <-].
  - destruct (dict_get c (children n)) as [n'|] eqn:G; [|discriminate].
    intros T H. apply (IH n' m T). rewrite subnodes_eq in H.
    apply Forall_cons_iff in H as [_ H].
    exact (Forall_flat_map_get _ _ sub _ c n' (children n) H G).
Qed.

Lemma live_below_root c x n m :
  traverse_from n (c :: x) = Some m -> no_dead_branch n ->
  dead m = false /\ no_dead_branch m.
Proof.
  simpl. destruct (dict_get c (children n)) as [n'|] eqn:G; [|discriminate].
  intros T H. apply live_subnodes. apply (subnodes_traverse _ x n' m T).
  exact (Forall_flat_map_get _ _ sub _ c n' (children n) H G).
Qed.

Lemma stored_word_under t P :
  reachable t -> P <> [] -> starts_with t P = true ->
  exists x, is_prefix P x /\ search t x = true.
Proof.
  intros Hr Hne H. pose proof (inv_dead t (reachable_invariant t Hr)) as Hd.
  unfold starts_with in H. destruct (_traverse t P) as [m|] eqn:T; [|discriminate].
  destruct P as [|c x]; [congruence|].
  destruct (live_below_root c x (_root t) m T Hd) as [H1 H2].
  destruct (live_has_word m H1 H2) as [s Hs].
  exists ((c :: x) ++ s). split; [now exists s|].
  now rewrite (search_app t (c :: x) s m T).
Qed.

Lemma starts_with_of_stored t P x :
  is_prefix P x -> search t x = true -> starts_with t P = true.
Proof.
  intros [s ->] H. apply search_prefix_traverse in H as [node Hn].
  unfold starts_with. now rewrite Hn.
Qed.

(** X7: in a reachable state, for a non-empty prefix, [starts_with(P)] is
    true exactly when some stored word begins with [P], that is when
    [count_prefix(P)] is positive: no path is left that leads to no word. *)
Theorem starts_with_means_stored_word (t : Trie) (P : word) :
  reachable t -> P <> [] ->
  (starts_with t P = true <-> exists x, is_prefix P x /\ search t x = true) /\
  (starts_with t P = true <-> (0 < count_prefix t P)%Z).
Proof.
  intros Hr Hne.
  pose proof (inv_keys t (reachable_invariant t Hr)) as Hk.
  assert (E : starts_with t P = true <->
              exists x, is_prefix P x /\ search t x = true).
  { split; [now apply stored_word_under|].
    intros [x [Hp Hx]]. exact (starts_with_of_stored t P x Hp Hx). }
  split; [exact E|]. rewrite E, count_prefix_length. split.
  - intros [x Hx]. apply (In_get_words t P x Hk) in Hx.
    destruct (get_words_with_prefix t P None); [contradiction | simpl; lia].
  - intros H. destruct (get_words_with_prefix t P None) as [|x l] eqn:L;
      [simpl in H; lia|].
    exists x. apply (In_get_words t P x Hk). rewrite L. now left.
Qed.

Lemma starts_with_means_stored_word_witness :
  (reachable t_cars /\ w "ca" <> []) /\
  (starts_with t_cars (w "ca") = true <->
   exists x, is_prefix (w "ca") x /\ search t_cars x = true) /\
  (starts_with t_cars (w "ca") = true <-> (0 < count_prefix t_cars (w "ca"))%Z).
Proof.
  split; [split; [exact reachable_t_cars | discriminate]|].
  apply (starts_with_means_stored_word t_cars (w "ca") reachable_t_cars).
  discriminate.
Defined.

Lemma size_is_number_of_words t :
  reachable t ->
  size t = Z.of_nat (length (get_words_with_prefix t [] None)).
Proof.
  intros Hr. rewrite <- count_prefix_length. unfold count_prefix, size. simpl.
  rewrite count_dfs_terminal. rewrite (inv_size t (reachable_invariant t Hr)).
  lia.
Qed.

Lemma In_all_words t x :
  unique_keys (_root t) ->
  In x (get_words_with_prefix t [] None) <-> search t x = true.
Proof.
  intros Hk. rewrite (In_get_words t [] x Hk). split; [tauto|].
  intros H. split; [now exists x | exact H].
Qed.

(** X8: in a reachable state the counter is never negative, and [is_empty()]
    is true exactly when no word is found by [search]. *)
Theorem is_empty_means_no_word (t : Trie) :
  reachable t ->
  (0 <= size t)%Z /\
  (is_empty t = true <-> forall x, search t x = false).
Proof.
  intros Hr. pose proof (inv_keys t (reachable_invariant t Hr)) as Hk.
  pose proof (size_is_number_of_words t Hr) as Hs.
  split; [lia|]. unfold is_empty. fold (size t). rewrite Z.eqb_eq, Hs. split.
  - intros H x. destruct (search t x) eqn:E; [|reflexivity].
    apply (In_all_words t x Hk) in E.
    destruct (get_words_with_prefix t [] None); [contradiction | simpl in H; lia].
  - intros H. destruct (get_words_with_prefix t [] None) as [|x l] eqn:L;
      [reflexivity|].
    assert (Hx : search t x = true).
    { apply (In_all_words t x Hk). rewrite L. now left. }
    rewrite H in Hx. discriminate.
Qed.

Lemma is_empty_means_no_word_witness :
  reachable (fst (delete (insert empty (w "a")) (w "a"))) /\
  is_empty (fst (delete (insert empty (w "a")) (w "a"))) = true /\
  forall x, search (fst (delete (insert empty (w "a")) (w "a"))) x = false.
Proof.
  assert (Hr : reachable (fst (delete (insert empty (w "a")) (w "a")))).
  { now exists [Insert (w "a"); Delete (w "a")]. }
  split; [exact Hr|]. split; [reflexivity|].
  exact (proj1 (proj2 (is_empty_means_no_word _ Hr)) eq_refl).
Defined.

(** X9: with a limit [k] the enumeration is the first [k] words of the
    enumeration without a limit, in the same order; when [k] is at least
    [count_prefix(P)] it is the whole of it. *)
Theorem limited_enumeration_is_initial_part (t : Trie) (P : word) (k : Z) :
  get_words_with_prefix t P (Some k)
  = firstn (Z.to_nat k) (get_words_with_prefix t P None) /\
  ((count_prefix t P <= k)%Z ->
   get_words_with_prefix t P (Some k) = get_words_with_prefix t P None).
Proof.
  split; [apply get_words_limit|].
  rewrite count_prefix_length, get_words_limit. intros H.
  apply firstn_all2. lia.
Qed.

Lemma limited_enumeration_is_initial_part_witness :
  get_words_with_prefix t_cats (w "ca") (Some 5%Z)
  = get_words_with_prefix t_cats (w "ca") None.
Proof.
  apply (proj2 (limited_enumeration_is_initial_part t_cats (w "ca") 5)).
  discriminate.
Defined.

(** X10: [count_prefix(P)] is the length of [get_words_with_prefix(P)], in
    every trie; with a limit [k] the enumeration has [min(k, count_prefix(P))]
    words, and none when [k] is negative. *)
Theorem count_prefix_is_number_of_matches (t : Trie) (P : word) (k : Z) :
  count_prefix t P = Z.of_nat (length (get_words_with_prefix t P None)) /\
  Z.of_nat (length (get_words_with_prefix t P (Some k)))
  = Z.max 0 (Z.min k (count_prefix t P)).
Proof.
  split; [apply count_prefix_length|].
  rewrite count_prefix_length, get_words_limit, length_firstn. lia.
Qed.

(** *** The application *)

Lemma collect_dfs_words n : forall path results,
  collect_dfs n path results = results ++ words_below n path.
Proof.
  induction n as [cs e IH] using TrieNode_tree_ind. intros path results.
  rewrite words_below_eq. simpl.
  rewrite (fold_left_ext_in _ (fun acc kv => acc ++ below path kv)).
  - rewrite fold_left_append. destruct e; [now rewrite <- app_assoc | reflexivity].
  - eapply Forall_impl; [|exact IH]. intros kv H acc. apply H.
Qed.

Lemma collect_all_words_below t :
  collect_all_words t = words_below (_root t) [].
Proof. unfold collect_all_words. now rewrite collect_dfs_words. Qed.

Lemma get_all_words_below t :
  get_words_with_prefix t [] None = words_below (_root t) [].
Proof.
  unfold get_words_with_prefix. simpl. now rewrite words_dfs_unbounded.
Qed.

(** X11: [collect_all_words(trie)] is [get_words_with_prefix("")] of the
    trie; in a reachable state it lists the words found by [search], every
    one once, and has [size()] elements. *)
Theorem collect_all_words_lists_the_words (t : Trie) :
  collect_all_words t = get_words_with_prefix t [] None /\
  (reachable t ->
   NoDup (collect_all_words t) /\
   (forall x, In x (collect_all_words t) <-> search t x = true) /\
   Z.of_nat (length (collect_all_words t)) = size t).
Proof.
  assert (E : collect_all_words t = get_words_with_prefix t [] None).
  { now rewrite collect_all_words_below, get_all_words_below. }
  split; [exact E|]. intros Hr. rewrite E.
  pose proof (inv_keys t (reachable_invariant t Hr)) as Hk.
  split; [now apply NoDup_get_words|]. split.
  - intros x. now apply In_all_words.
  - symmetry. now apply size_is_number_of_words.
Qed.

Lemma collect_all_words_lists_the_words_witness :
  NoDup (collect_all_words t_cars) /\
  (forall x, In x (collect_all_words t_cars) <-> search t_cars x = true) /\
  Z.of_nat (length (collect_all_words t_cars)) = size t_cars.
Proof.
  exact (proj2 (collect_all_words_lists_the_words t_cars) reachable_t_cars).
Defined.

Lemma filter_all {A} (f : A -> bool) (l : list A) :
  (forall x, In x l -> f x = true) -> filter f l = l.
Proof.
  induction l as [|a l IH]; simpl; intros H; [reflexivity|].
  rewrite (H a) by now left. f_equal. apply IH. intros x Hx. apply H. now right.
Qed.

Lemma filter_none {A} (f : A -> bool) (l : list A) :
  (forall x, In x l -> f x = false) -> filter f l = [].
Proof.
  induction l as [|a l IH]; simpl; intros H; [reflexivity|].
  rewrite (H a) by now left. apply IH. intros x Hx. apply H. now right.
Qed.

Lemma dict_get_absent {V} k (d : dict V) : ~ In k (keys d) -> dict_get k d = None.
Proof.
  induction d as [|[k0 v0] d IH]; simpl; [reflexivity|].
  intros H. destruct (Ascii.eqb k k0) eqn:E.
  - apply Ascii.eqb_eq in E. subst k0. tauto.
  - apply IH. tauto.
Qed.

Lemma startswith_other_branch m path k c P :
  k <> c ->
  filter (fun x => startswith x (path ++ c :: P)) (words_below m (path ++ [k]))
  = [].
Proof.
  intros Hne. apply filter_none. intros x Hx.
  apply words_below_prefix in Hx as [s ->].
  destruct (startswith ((path ++ [k]) ++ s) (path ++ c :: P)) eqn:E;
    [|reflexivity].
  apply startswith_is_prefix in E as [s' E].
  rewrite <- !app_assoc in E. apply app_inv_head in E. simpl in E. congruence.
Qed.

Lemma filter_children path c P cs :
  NoDup (keys cs) ->
  filter (fun x => startswith x (path ++ c :: P)) (flat_map (below path) cs)
  = match dict_get c cs with
    | Some m =>
        filter (fun x => startswith x (path ++ c :: P))
          (words_below m (path ++ [c]))
    | None => []
    end.
Proof.
  induction cs as [|[k m] cs IH]; simpl; intros Hnd; [reflexivity|].
  inversion Hnd as [|? ? Hnotin Hnd']; subst.
  rewrite filter_app, (IH Hnd'). destruct (Ascii.eqb c k) eqn:E.
  - apply Ascii.eqb_eq in E. subst k.
    rewrite (dict_get_absent c cs Hnotin). apply app_nil_r.
  - apply Ascii.eqb_neq in E. rewrite startswith_other_branch by congruence.
    reflexivity.
Qed.

(** Filtering the words below a node by a prefix gives the words below the
    node at the end of the prefix. *)
Lemma filter_words_below P : forall n path,
  unique_keys n ->
  filter (fun x => startswith x (path ++ P)) (words_below n path)
  = match traverse_from n P with
    | Some m => words_below m (path ++ P)
    | None => []
    end.
Proof.
  induction P as [|c P IH]; intros n path Hk.
  - simpl. rewrite app_nil_r. apply filter_all. intros x Hx.
    apply startswith_is_prefix. exact (words_below_prefix n path x Hx).
  - rewrite words_below_eq, filter_app.
    replace (filter _ (if is_end n then [path] else [])) with (@nil word).
    2:{ symmetry. apply filter_none. intros x Hx.
        destruct (is_end n); [|contradiction]. destruct Hx as [<-|[]].
        destruct (startswith path (path ++ c :: P)) eqn:E; [|reflexivity].
        apply startswith_is_prefix in E as [s E].
        apply (f_equal (@length ascii)) in E.
        rewrite !length_app in E. simpl in E. lia. }
    pose proof Hk as Hk0. apply unique_keys_eq in Hk0 as [Hnd _].
    rewrite (filter_children path c P (children n) Hnd). simpl.
    destruct (dict_get c (children n)) as [m|] eqn:G; [|reflexivity].
    replace (path ++ c :: P) with ((path ++ [c]) ++ P)
      by now rewrite <- app_assoc.
    apply IH. exact (unique_keys_child c n m Hk G).
Qed.

(** X12: in a reachable state the linear search of [compare] (the words of
    [collect_all_words] that start with the prefix) and the search in the
    trie give the same list, in the same order. *)
Theorem linear_search_agrees_with_trie (t : Trie) (P : word) :
  reachable t -> linear_matches t P = trie_matches t P.
Proof.
  intros Hr. pose proof (inv_keys t (reachable_invariant t Hr)) as Hk.
  unfold linear_matches, trie_matches, get_words_with_prefix, _traverse.
  rewrite collect_all_words_below.
  pose proof (filter_words_below P (_root t) [] Hk) as F. simpl in F.
  rewrite F. destruct (traverse_from (_root t) P); [|reflexivity].
  now rewrite words_dfs_unbounded.
Qed.

Lemma linear_search_agrees_with_trie_witness :
  reachable t_cats /\ linear_matches t_cats (w "ca") = trie_matches t_cats (w "ca").
Proof.
  split; [exact reachable_t_cats|].
  exact (linear_search_agrees_with_trie t_cats (w "ca") reachable_t_cats).
Defined.

(** X13: for a limit that is not negative, the first [limit] matches that
    [compare] prints, [trie_matches[:limit]], are the words that [prefix]
    prints for the same limit. *)
Theorem compare_shows_what_prefix_shows (t : Trie) (P : word) (limit : Z) :
  (0 <= limit)%Z ->
  slice_to limit (trie_matches t P) = get_words_with_prefix t P (Some limit).
Proof.
  intros H. unfold slice_to, trie_matches. rewrite get_words_limit.
  apply Z.leb_le in H. now rewrite H.
Qed.

Lemma compare_shows_what_prefix_shows_witness :
  (0 <= 2)%Z /\
  slice_to 2 (trie_matches t_cats (w "ca"))
  = get_words_with_prefix t_cats (w "ca") (Some 2%Z).
Proof.
  split; [discriminate|].
  apply (compare_shows_what_prefix_shows t_cats (w "ca") 2). discriminate.
Defined.

(** *** Loading a word list *)

Lemma load_lines_fold normalize lines : forall t count,
  load_lines normalize t count lines
  = (fold_left insert (filter nonblank (map normalize lines)) t,
     (count + Z.of_nat (length (filter nonblank (map normalize lines))))%Z).
Proof.
  induction lines as [|line rest IH]; intros t count; simpl.
  - f_equal. lia.
  - destruct (normalize line) as [|ch x]; simpl; rewrite IH; f_equal; lia.
Qed.

Lemma load_words_fold normalize t file :
  load_words normalize t file
  = (fold_left insert (loaded_words normalize file) t,
     Z.of_nat (length (loaded_words normalize file))).
Proof.
  destruct file as [lines|]; [|reflexivity].
  unfold load_words, loaded_words. now rewrite load_lines_fold.
Qed.

Lemma loaded_words_nonempty normalize file x :
  In x (loaded_words normalize file) -> x <> [].
Proof.
  destruct file as [lines|]; simpl.
  - intros H. apply filter_In in H as [_ H]. now destruct x.
  - intros H ->. revert H. unfold fallback. simpl.
    repeat (intros [H|H]; [discriminate H | revert H]). tauto.
Qed.

Lemma search_fold_insert ws : forall t x,
  search (fold_left insert ws t) x = true <->
  search t x = true \/ (x <> [] /\ In x ws).
Proof.
  induction ws as [|a ws IH]; intros t x; simpl.
  - tauto.
  - rewrite IH, search_insert. destruct a as [|ch a].
    + split; [intros [H|[H1 H2]]; [now left | right; tauto]|].
      intros [H|[H1 [H2|H2]]]; [now left | congruence | right; tauto].
    + destruct (word_eq_dec x (ch :: a)) as [->|Hne].
      * split; [intros _; right; split; [discriminate | now left]|now left].
      * split; [intros [H|[H1 H2]]; [now left | right; tauto]|].
        intros [H|[H1 [H2|H2]]]; [now left | congruence | right; tauto].
Qed.

Lemma size_fold_insert ws : forall t,
  (size t <= size (fold_left insert ws t) <= size t + Z.of_nat (length ws))%Z.
Proof.
  induction ws as [|a ws IH]; intros t; simpl length; simpl fold_left; [lia|].
  specialize (IH (insert t a)). rewrite size_insert in IH.
  destruct a as [|ch a]; [lia|]. destruct (search t (ch :: a)); lia.
Qed.

Lemma fold_insert_stored ws : forall t,
  (forall x, In x ws -> search t x = true) -> fold_left insert ws t = t.
Proof.
  induction ws as [|a ws IH]; intros t H; simpl; [reflexivity|].
  rewrite (insert_present t a) by (apply H; now left).
  apply IH. intros x Hx. apply H. now right.
Qed.

(** X14: [load_words] returns the number of non-blank lines (of words of the
    built-in list when there is no file), repeated words counted each time;
    afterwards the words found are those found before and the words loaded;
    [size()] does not go down and grows by at most the number returned. *)
Theorem load_words_loads_the_words
    (normalize : list ascii -> word) (t : Trie)
    (file : option (list (list ascii))) :
  snd (load_words normalize t file)
  = Z.of_nat (length (loaded_words normalize file)) /\
  (forall x, search (fst (load_words normalize t file)) x = true <->
             search t x = true \/ In x (loaded_words normalize file)) /\
  (size t <= size (fst (load_words normalize t file))
   <= size t + snd (load_words normalize t file))%Z.
Proof.
  rewrite load_words_fold. cbn [fst snd]. split; [reflexivity|]. split.
  - intros x. rewrite search_fold_insert. split.
    + intros [H|[_ H]]; [now left | now right].
    + intros [H|H]; [now left|]. right. split; [|exact H].
      exact (loaded_words_nonempty normalize file x H).
  - apply size_fold_insert.
Qed.

(** X15: loading the same word list once more leaves the trie exactly as
    the first load left it, and returns the same number. *)
Theorem load_words_twice
    (normalize : list ascii -> word) (t : Trie)
    (file : option (list (list ascii))) :
  load_words normalize (fst (load_words normalize t file)) file
  = load_words normalize t file.
Proof.
  rewrite !load_words_fold. cbn [fst]. f_equal.
  apply fold_insert_stored. intros x Hx. apply search_fold_insert.
  right. split; [|exact Hx]. exact (loaded_words_nonempty normalize file x Hx).
Qed.

(** *** Counts and paths after a change *)

Lemma same_words_same_length (l l' : list word) :
  NoDup l -> NoDup l' -> (forall x, In x l <-> In x l') -> length l = length l'.
Proof.
  intros H H' E. apply Nat.le_antisymm; apply NoDup_incl_length; trivial;
    intros x Hx; now apply E.
Qed.

Lemma count_prefix_cons t t' P W :
  unique_keys (_root t) -> unique_keys (_root t') ->
  search t W = false ->
  (forall x, search t' x = true <-> x = W \/ search t x = true) ->
  count_prefix t' P = (count_prefix t P + if startswith W P then 1 else 0)%Z.
Proof.
  intros Hk Hk' HW E. rewrite !count_prefix_length.
  pose proof (NoDup_get_words t P Hk) as N.
  pose proof (NoDup_get_words t' P Hk') as N'.
  destruct (startswith W P) eqn:S.
  - apply startswith_is_prefix in S.
    assert (L : length (get_words_with_prefix t' P None)
                = length (W :: get_words_with_prefix t P None)).
    { apply same_words_same_length; [assumption| |].
      - constructor; [|assumption]. intros H.
        apply (In_get_words t P W Hk) in H as [_ H]. congruence.
      - intros x. simpl. rewrite (In_get_words t' P x Hk'),
          (In_get_words t P x Hk), E. split.
        + intros [Hp [->|Hx]]; [now left | right; tauto].
        + intros [<-|[Hp Hx]]; split; auto. }
    rewrite L. simpl length. lia.
  - assert (L : length (get_words_with_prefix t' P None)
                = length (get_words_with_prefix t P None)).
    { apply same_words_same_length; [assumption|assumption|].
      intros x. rewrite (In_get_words t' P x Hk'), (In_get_words t P x Hk), E.
      split; [|tauto]. intros [Hp [->|Hx]]; [|tauto].
      apply startswith_is_prefix in Hp. congruence. }
    rewrite L. lia.
Qed.

(** X16: in a reachable state the insert of a non-empty word that is not
    stored adds one to [count_prefix(P)] for the prefixes [P] of the word and
    leaves the other counts as they are. *)
Theorem count_prefix_after_insert (t : Trie) (W P : word) :
  reachable t -> W <> [] -> search t W = false ->
  count_prefix (insert t W) P
  = (count_prefix t P + if startswith W P then 1 else 0)%Z.
Proof.
  intros Hr Hne HW.
  pose proof (inv_keys t (reachable_invariant t Hr)) as Hk.
  pose proof (inv_keys _ (invariant_insert t W (reachable_invariant t Hr))) as Hk'.
  apply (count_prefix_cons t (insert t W) P W Hk Hk' HW).
  intros x. rewrite search_insert. destruct W as [|ch a]; [congruence|].
  destruct (word_eq_dec x (ch :: a)); split; auto.
  intros [H|H]; [contradiction | exact H].
Qed.

Lemma count_prefix_after_insert_witness :
  (reachable t_cars /\ w "cart" <> [] /\ search t_cars (w "cart") = false) /\
  count_prefix (insert t_cars (w "cart")) (w "ca")
  = (count_prefix t_cars (w "ca") + if startswith (w "cart") (w "ca") then 1 else 0)%Z.
Proof.
  split; [split; [exact reachable_t_cars | split; [discriminate | reflexivity]]|].
  apply (count_prefix_after_insert t_cars (w "cart") (w "ca") reachable_t_cars).
  - discriminate.
  - reflexivity.
Defined.

(** X17: in a reachable state the delete of a stored word takes one from
    [count_prefix(P)] for the prefixes [P] of the word and leaves the other
    counts as they are. *)
Theorem count_prefix_after_delete (t : Trie) (W P : word) :
  reachable t -> search t W = true ->
  count_prefix (fst (delete t W)) P
  = (count_prefix t P - if startswith W P then 1 else 0)%Z.
Proof.
  intros Hr HW.
  assert (Hne : W <> []).
  { intros ->. rewrite (root_not_stored t Hr) in HW. discriminate. }
  pose proof (inv_keys t (reachable_invariant t Hr)) as Hk.
  pose proof (inv_keys _ (invariant_delete t W (reachable_invariant t Hr))) as Hk'.
  assert (HW' : search (fst (delete t W)) W = false).
  { rewrite search_delete. destruct W as [|ch a]; [congruence|].
    now destruct (word_eq_dec (ch :: a) (ch :: a)). }
  rewrite (count_prefix_cons (fst (delete t W)) t P W Hk' Hk HW'); [lia|].
  intros x. rewrite search_delete. destruct W as [|ch a]; [congruence|].
  destruct (word_eq_dec x (ch :: a)) as [->|]; split; auto.
  intros [H|H]; [contradiction | exact H].
Qed.

Lemma count_prefix_after_delete_witness :
  (reachable t_cars /\ search t_cars (w "card") = true) /\
  count_prefix (fst (delete t_cars (w "card"))) (w "ca")
  = (count_prefix t_cars (w "ca") - if startswith (w "card") (w "ca") then 1 else 0)%Z.
Proof.
  split; [split; [exact reachable_t_cars | reflexivity]|].
  exact (count_prefix_after_delete t_cars (w "card") (w "ca")
           reachable_t_cars eq_refl).
Defined.

(** X18: in a reachable state, after [delete(W)] of a non-empty word,
    [starts_with(P)] of a non-empty prefix is true exactly when a stored word
    other than [W] begins with [P]: the pruning takes away every path that
    led to [W] only. *)
Theorem starts_with_after_delete (t : Trie) (W P : word) :
  reachable t -> W <> [] -> P <> [] ->
  (starts_with (fst (delete t W)) P = true <->
   exists x, x <> W /\ is_prefix P x /\ search t x = true).
Proof.
  intros Hr HW HP.
  assert (Hr' : reachable (fst (delete t W)))
    by exact (reachable_apply_op t (Delete W) Hr).
  assert (E : forall x, search (fst (delete t W)) x = true <->
                        x <> W /\ search t x = true).
  { intros x. rewrite search_delete. destruct W as [|ch a]; [congruence|].
    destruct (word_eq_dec x (ch :: a)); split; try tauto; discriminate. }
  split.
  - intros H. destruct (stored_word_under _ P Hr' HP H) as [x [Hp Hx]].
    exists x. apply E in Hx. tauto.
  - intros [x [Hx [Hp Hs]]].
    apply (starts_with_of_stored _ P x Hp). apply E. tauto.
Qed.

Lemma starts_with_after_delete_witness :
  (reachable t_cats /\ w "dog" <> [] /\ w "do" <> []) /\
  starts_with t_cats (w "do") = true /\
  ~ starts_with (fst (delete t_cats (w "dog"))) (w "do") = true /\
  (starts_with (fst (delete t_cats (w "dog"))) (w "do") = true <->
   exists x, x <> w "dog" /\ is_prefix (w "do") x /\ search t_cats x = true).
Proof.
  split; [split; [exact reachable_t_cats | split; discriminate]|].
  split; [reflexivity|]. split; [discriminate|].
  apply (starts_with_after_delete t_cats (w "dog") (w "do") reachable_t_cats);
    discriminate.
Defined.
